(** * file-crawler (ssfi): word accumulator, file scanner and directory walk

    A shallow embedding of [WordAccumulator.h], of the [FileIndexer] class
    (its [ProcessFile], [SearchForFiles] and [Run] methods), of
    [ProgramOptions.h] and of [main], followed by the properties of the
    program.

    Conventions of the embedding:
    - [std::string] is [string]; a [char] buffer and the bytes of a file are
      [list ascii]; [size_t] indices are [nat], the hash value is [N]; an
      [int] is a [Z].  The count of a word is an [int] that [AddWord]
      increments: it is kept in the range of a 32-bit [int], and the
      increment of [INT_MAX] gives [INT_MIN] ([int_wrap]), which is what the
      compiled code does where the language leaves the overflow undefined;
    - [std::vector] is [list], indexed with stdpp's lookup and [alter];
    - the two library functions whose result the C++ standard leaves to the
      implementation, [std::hash<std::string>] and [std::sort], are
      interfaces ([StdHash], [StdSort]) with the contract the standard gives;
    - the mutexes are not modelled: every method body is one atomic step;
      the worker threads of [Run] are one worker that runs the handlers in
      the order they were posted, once the walk is over; [Run] runs no
      handler when it has no worker thread or when the io_service is
      stopped;
    - behaviour the language leaves undefined, and [assert], are outcomes of
      their own ([Outcome]). *)

From Stdlib Require Import ZArith NArith Ascii String List Lia.
From stdpp Require Import base list strings sorting gmap.

Local Open Scope string_scope.
Local Open Scope Z_scope.
Local Open Scope list_scope.

(** ** Outcomes of a method call *)

Inductive Outcome (A : Type) : Type :=
| Returns (a : A)            (* the call returns normally *)
| AssertionFailed            (* [assert] fails: [abort()], the process dies *)
| OutOfRange.                (* access outside an array: undefined behaviour *)
Arguments Returns {A} a.
Arguments AssertionFailed {A}.
Arguments OutOfRange {A}.

(** ** Library interfaces *)

(** [std::hash<std::string>]: some function of the text of the word. *)
Class StdHash := std_hash : string → N.

(** The requirement of [std::sort] on its comparison: a strict weak order. *)
Record StrictWeakOrder {A} (comp : A → A → bool) : Prop := {
  swo_irrefl : ∀ a, comp a a = false;
  swo_trans : ∀ a b c, comp a b = true → comp b c = true → comp a c = true;
  swo_incomp : ∀ a b c, comp a b = false → comp b c = false → comp a c = false
}.

(** [std::sort(first, last, comp)]: the range is permuted so that no element
    compares before an earlier one.  Nothing is promised about the order of
    equivalent elements. *)
Class StdSort := {
  std_sort : ∀ {A}, (A → A → bool) → list A → list A;
  std_sort_perm : ∀ A (comp : A → A → bool) l, std_sort comp l ≡ₚ l;
  std_sort_sorted : ∀ A (comp : A → A → bool) l,
    StrictWeakOrder comp →
    StronglySorted (λ a b, comp b a = false) (std_sort comp l)
}.

(** ** WordAccumulator.h *)

Abbreviation WordCountType := (string * Z)%type.
Abbreviation Bin := (list WordCountType).

Definition BIN_COUNT : nat := Z.to_nat 32767.

Record WordAccumulator := { mBins : list Bin }.

(** The constructor: [mBins(BIN_COUNT)], that many empty bins. *)
Definition WordAccumulator_new : WordAccumulator :=
  {| mBins := replicate BIN_COUNT [] |}.

(** The range of an [int], 32 bits in two's complement. *)
Definition INT_MIN : Z := -2147483648.
Definition INT_MAX : Z := 2147483647.

(** The [int] a result is stored as: the value of the same 32 bits. *)
Definition int_wrap (z : Z) : Z := (z - INT_MIN) mod 4294967296 + INT_MIN.

(** The loop of [AddWord] over one bin: the first pair whose word is [word]
    is incremented ([wordPair.second++], on an [int]) and the method
    returns; when the loop ends without a match, [emplace_back(word, 1)]. *)
Fixpoint AddWord_bin (word : string) (bin : Bin) : Bin :=
  match bin with
  | [] => [(word, 1)]
  | wordPair :: rest =>
      if String.eqb (fst wordPair) word
      then (fst wordPair, int_wrap (snd wordPair + 1)) :: rest
      else wordPair :: AddWord_bin word rest
  end.

Section Accumulator.
Context `{StdHash}.

(** [mHasher(word) % mBins.size()] *)
Definition binIndex (word : string) (acc : WordAccumulator) : nat :=
  N.to_nat (std_hash word mod N.of_nat (length (mBins acc))).

Definition AddWord (word : string) (acc : WordAccumulator) : WordAccumulator :=
  {| mBins := alter (AddWord_bin word) (binIndex word acc) (mBins acc) |}.
End Accumulator.

(** [bin.clear()] on every bin. *)
Definition ClearResults (acc : WordAccumulator) : WordAccumulator :=
  {| mBins := map (λ _, []) (mBins acc) |}.

(** The sum of the sizes of the bins. *)
Definition GetUniqueWordCount (acc : WordAccumulator) : nat :=
  foldl (λ totalWords bin, (totalWords + length bin)%nat) 0%nat (mBins acc).

(** The second loop of [ListTopWords]: every non-empty bin is appended to
    [allWords]. *)
Definition allWords (acc : WordAccumulator) : list WordCountType :=
  foldl (λ all bin, if (length bin <=? 0)%nat then all else all ++ bin)
        [] (mBins acc).

(** The lambda given to [std::sort]: [a.second > b.second]. *)
Definition by_occurrence (a b : WordCountType) : bool := snd b <? snd a.

(** [ListTopWords(count)].  The final statement builds a vector from the
    iterator range [begin(), begin() + count): that range lies inside
    [allWords] only when [0 <= count <= allWords.size()]. *)
Definition ListTopWords `{StdSort} (count : Z) (acc : WordAccumulator)
  : Outcome (list WordCountType) :=
  let all := allWords acc in
  if (length all <=? 0)%nat then Returns all
  else
    let sorted := std_sort by_occurrence all in
    if (0 <=? count) && (count <=? Z.of_nat (length sorted))
    then Returns (take (Z.to_nat count) sorted)
    else OutOfRange.

(** *** Observations on an accumulator (specification level) *)

(** The entry of [word] in the snapshot [ListTopWords] sorts, if any. *)
Definition entry_of (word : string) (acc : WordAccumulator) : option WordCountType :=
  find (λ p, String.eqb (fst p) word) (allWords acc).

(** The count recorded for [word]; [0] when the word is not recorded. *)
Definition count_of (word : string) (acc : WordAccumulator) : Z :=
  from_option snd 0 (entry_of word acc).

(** ** The environment of the indexer *)

(** How reading a stream ends: [get()] sets [eofbit] at the end of the file,
    or the read fails ([badbit], [errno] set) and [eof()] stays false. *)
Inductive StreamEnd : Type :=
| EndOfFile
| ReadError (err : Z).

(** What [ifstream textFile(filename)] gives: a stream that is not [good()]
    ([errno] says why), or the characters [get()] delivers one by one and
    then how the stream ends. *)
Inductive FileData : Type :=
| CannotOpen (err : Z)
| Opened (content : list ascii) (stop : StreamEnd).

#[local] Set Warnings "-register-all".

(** What the system answers for one path: [lstat] (the [st_mode], or a
    failure), [opendir] with the entries [readdir] then yields in turn, each
    [d_name] with the answers for that entry (or the [errno] of a failed
    [opendir]), and the stream an [ifstream] on it gives.  A [d_name] is a C
    string: it holds no NUL character. *)
Inductive Path : Type :=
  PathInfo (lstat : option Z) (opendir : Z + list (string * Path)) (ifstream : FileData).

#[local] Set Warnings "register-all".

Definition lstat (p : Path) : option Z := let 'PathInfo st _ _ := p in st.
Definition opendir (p : Path) : Z + list (string * Path) := let 'PathInfo _ d _ := p in d.
Definition ifstream (p : Path) : FileData := let 'PathInfo _ _ f := p in f.

(** The file type tests of <sys/stat.h>, with the values Linux gives them
    (octal 0170000, 0120000, 0100000, 0040000). *)
Definition S_IFMT : Z := 61440.
Definition S_IFLNK : Z := 40960.
Definition S_IFREG : Z := 32768.
Definition S_IFDIR : Z := 16384.
Definition S_ISLNK (st_mode : Z) : bool := Z.land st_mode S_IFMT =? S_IFLNK.
Definition S_ISREG (st_mode : Z) : bool := Z.land st_mode S_IFMT =? S_IFREG.
Definition S_ISDIR (st_mode : Z) : bool := Z.land st_mode S_IFMT =? S_IFDIR.

(** A line written to [cout]; [strerror(err)] is a function of [err]. *)
Inductive Line : Type :=
| FailedToOpen (filename : string) (err : Z)
    (* "Failed to open '<filename>': [<err>] <strerror(err)>" *)
| FailedReading (filename : string) (err : Z)
    (* "Failed reading file '<filename>': [<err>] <strerror(err)>" *)
| Strerror (err : Z)
    (* "<strerror(err)>" *)
| WordsFound (n : nat).
    (* "<n> words found" *)

(** ** FileIndexer *)

(** A handler posted to the io_service: [ProcessFile] bound to a copy of
    [entryPath].  The stream that path will give is kept beside it. *)
Abbreviation Task := (string * FileData)%type.

(** The state of a [FileIndexer] and of the process around it.  The
    io_service is the queue of the handlers posted and not yet run
    ([mIOService]) and its stopped flag ([mIOService_stopped]): once its
    [run()] calls have returned for lack of work it is stopped, and later
    [run()] calls return at once, as nothing calls [reset()].  [calls] is
    ghost state: the argument of every [AddWord] call made so far, oldest
    first. *)
Record FileIndexer := {
  mFileProcessingThreads : Z;
  mWordsFound : WordAccumulator;
  mIOService : list Task;
  mIOService_stopped : bool;
  cout : list Line;
  calls : list string
}.

(** The constructor: [mWordsFound()], a new io_service. *)
Definition FileIndexer_new (fileProcessingThreads : Z) : FileIndexer :=
  {| mFileProcessingThreads := fileProcessingThreads;
     mWordsFound := WordAccumulator_new; mIOService := [];
     mIOService_stopped := false; cout := []; calls := [] |}.

Definition print (line : Line) (idx : FileIndexer) : FileIndexer :=
  {| mFileProcessingThreads := mFileProcessingThreads idx;
     mWordsFound := mWordsFound idx; mIOService := mIOService idx;
     mIOService_stopped := mIOService_stopped idx;
     cout := cout idx ++ [line]; calls := calls idx |}.

Definition post (task : Task) (idx : FileIndexer) : FileIndexer :=
  {| mFileProcessingThreads := mFileProcessingThreads idx;
     mWordsFound := mWordsFound idx; mIOService := mIOService idx ++ [task];
     mIOService_stopped := mIOService_stopped idx;
     cout := cout idx; calls := calls idx |}.

(** [mWordsFound.AddWord(word)] *)
Definition mWordsFound_AddWord `{StdHash} (word : string) (idx : FileIndexer) : FileIndexer :=
  {| mFileProcessingThreads := mFileProcessingThreads idx;
     mWordsFound := AddWord word (mWordsFound idx); mIOService := mIOService idx;
     mIOService_stopped := mIOService_stopped idx;
     cout := cout idx; calls := calls idx ++ [word] |}.

(** *** ProcessFile *)

Definition buffSize : nat := 2048.

(** The locals of the scanning loop. *)
Record ScanLocals := { wordBuffer : list ascii; bufIndex : nat }.

Definition NUL : ascii := Ascii.zero.

(** [new char[buffSize]] gives [buffSize] characters of no particular value;
    here they are NUL.  The scan reads a character of the buffer only after
    storing it ([scan_loop_any_buffer]), so the choice shows nowhere. *)
Definition new_wordBuffer : list ascii := replicate buffSize NUL.

(** [(int)ch], [char] being signed. *)
Definition int_of_char (ch : ascii) : Z :=
  let n := Z.of_N (N_of_ascii ch) in if n <? 128 then n else n - 256.

(** [(char)i] *)
Definition char_of_int (i : Z) : ascii := ascii_of_N (Z.to_N (i mod 256)).

(** The classification of one character: the flag [alphanum] and the
    character to store. *)
Definition classify (ch : ascii) : bool * ascii :=
  let ascii := int_of_char ch in
  if ((48 <=? ascii) && (ascii <=? 57)) || ((97 <=? ascii) && (ascii <=? 122))
  then (true, ch)
  else if (65 <=? ascii) && (ascii <=? 90)
  then (true, char_of_int (ascii + 32))
  else (false, ch).

(** [wordBuffer[i] = ch]: inside the array, or undefined. *)
Definition store (i : nat) (ch : ascii) (buf : list ascii) : Outcome (list ascii) :=
  if decide (i < length buf)%nat then Returns (<[i := ch]> buf) else OutOfRange.

(** The characters of a C string: those before its first NUL. *)
Fixpoint c_str (buf : list ascii) : list ascii :=
  match buf with
  | [] => []
  | ch :: rest => if Ascii.eqb ch NUL then [] else ch :: c_str rest
  end.

Section Indexer.
Context `{StdHash}.

(** The body of the [while] loop, for the character [get()] delivered. *)
Definition scan_char (ch : ascii) (loc : ScanLocals) (idx : FileIndexer)
  : Outcome ScanLocals * FileIndexer :=
  let '(alphanum, ch) := classify ch in
  if alphanum then
    match store (bufIndex loc) ch (wordBuffer loc) with
    | Returns buf =>
        let bufIndex := S (bufIndex loc) in
        if decide (bufIndex < buffSize)%nat
        then (Returns {| wordBuffer := buf; bufIndex := bufIndex |}, idx)
        else (AssertionFailed, idx)
    | _ => (OutOfRange, idx)
    end
  else if decide (0 < bufIndex loc)%nat then
    match store (bufIndex loc) NUL (wordBuffer loc) with
    | Returns buf =>
        let word := string_of_list_ascii (c_str buf) in
        (Returns {| wordBuffer := buf; bufIndex := 0 |}, mWordsFound_AddWord word idx)
    | _ => (OutOfRange, idx)
    end
  else (Returns loc, idx).

(** The [while] loop over the characters the stream delivers. *)
Fixpoint scan_loop (content : list ascii) (loc : ScanLocals) (idx : FileIndexer)
  : Outcome ScanLocals * FileIndexer :=
  match content with
  | [] => (Returns loc, idx)
  | ch :: rest =>
      match scan_char ch loc idx with
      | (Returns loc', idx') => scan_loop rest loc' idx'
      | failed => failed
      end
  end.

Definition ProcessFile (filename : string) (textFile : FileData) (idx : FileIndexer)
  : Outcome unit * FileIndexer :=
  match textFile with
  | CannotOpen err => (Returns (), print (FailedToOpen filename err) idx)
  | Opened content stop =>
      match scan_loop content {| wordBuffer := new_wordBuffer; bufIndex := 0 |} idx with
      | (Returns _, idx') =>
          match stop with
          | EndOfFile => (Returns (), idx')
          | ReadError err => (Returns (), print (FailedReading filename err) idx')
          end
      | (AssertionFailed, idx') => (AssertionFailed, idx')
      | (OutOfRange, idx') => (OutOfRange, idx')
      end
  end.

(** The worker side of [Run]: the posted handlers, run one after the other
    in the order they were posted (the schedule of a single worker). *)
Fixpoint run_tasks (tasks : list Task) (idx : FileIndexer) : Outcome unit * FileIndexer :=
  match tasks with
  | [] => (Returns (), idx)
  | (filename, textFile) :: rest =>
      match ProcessFile filename textFile idx with
      | (Returns _, idx') => run_tasks rest idx'
      | failed => failed
      end
  end.
End Indexer.

(** *** SearchForFiles *)

(** [len >= 4 && strcmp(&d_name[len-4], ".txt") == 0] *)
Definition ends_in_txt (d_name : string) : bool :=
  let len := String.length d_name in
  (4 <=? len)%nat && String.eqb (substring (len - 4) 4 d_name) ".txt".

(** The body of the [readdir] loop for one entry; [recurse] is
    [SearchForFiles] itself. *)
Definition visit_entry (recurse : string → Path → FileIndexer → FileIndexer)
    (basePath : string) (entry : string * Path) (idx : FileIndexer) : FileIndexer :=
  let '(d_name, e) := entry in
  if String.eqb d_name "." || String.eqb d_name ".." then idx
  else
    let entryPath := basePath +:+ "/" +:+ d_name in
    match lstat e with
    | None => idx
    | Some st_mode =>
        if S_ISLNK st_mode then idx
        else if S_ISREG st_mode then
          if ends_in_txt d_name then post (entryPath, ifstream e) idx else idx
        else if S_ISDIR st_mode then recurse entryPath e idx
        else idx
    end.

Fixpoint SearchForFiles (basePath : string) (dir : Path) (idx : FileIndexer)
  {struct dir} : FileIndexer :=
  match dir with
  | PathInfo _ (inl err) _ => print (Strerror err) idx
  | PathInfo _ (inr entries) _ =>
      (fix readdir_loop (entries : list (string * Path)) (idx : FileIndexer)
         {struct entries} : FileIndexer :=
         match entries with
         | [] => idx
         | entry :: rest =>
             readdir_loop rest (visit_entry SearchForFiles basePath entry idx)
         end) entries idx
  end.

(** *** Run *)

Definition mWordsFound_ClearResults (idx : FileIndexer) : FileIndexer :=
  {| mFileProcessingThreads := mFileProcessingThreads idx;
     mWordsFound := ClearResults (mWordsFound idx); mIOService := mIOService idx;
     mIOService_stopped := mIOService_stopped idx;
     cout := cout idx; calls := calls idx |}.

(** The handlers leave the queue as the workers take them. *)
Definition take_posted (idx : FileIndexer) : list Task * FileIndexer :=
  (mIOService idx,
   {| mFileProcessingThreads := mFileProcessingThreads idx;
      mWordsFound := mWordsFound idx; mIOService := [];
      mIOService_stopped := mIOService_stopped idx;
      cout := cout idx; calls := calls idx |}).

(** The [run()] calls of the workers return when the [work] object is gone
    and no handler is left: the io_service is stopped from then on. *)
Definition mIOService_stop (idx : FileIndexer) : FileIndexer :=
  {| mFileProcessingThreads := mFileProcessingThreads idx;
     mWordsFound := mWordsFound idx; mIOService := mIOService idx;
     mIOService_stopped := true;
     cout := cout idx; calls := calls idx |}.

(** [Run()]: clear, walk, let the workers finish, report.  The handlers are
    run by the [mFileProcessingThreads] worker threads, each in
    [mIOService.run()]: when there is no worker (the loop creates none for a
    number that is not positive), or when the io_service is stopped (its
    [run()] returns at once), the handlers posted stay in the queue and none
    is run.  The walk posts and the workers process; here every handler
    runs after the walk, one after the other. *)
Definition Run `{StdHash} (mBasePath : string) (root : Path) (idx : FileIndexer)
  : Outcome unit * FileIndexer :=
  let idx := mWordsFound_ClearResults idx in
  let idx := SearchForFiles mBasePath root idx in
  if (0 <? mFileProcessingThreads idx) && negb (mIOService_stopped idx) then
    let '(tasks, idx) := take_posted idx in
    match run_tasks tasks idx with
    | (Returns _, idx') =>
        (Returns (),
         print (WordsFound (GetUniqueWordCount (mWordsFound idx'))) (mIOService_stop idx'))
    | failed => failed
    end
  else
    (Returns (), print (WordsFound (GetUniqueWordCount (mWordsFound idx))) idx).

(** ** Specification-level notions *)

(** The character classes, by their characters. *)
Definition is_digit (ch : ascii) : bool :=
  (N_of_ascii "0" <=? N_of_ascii ch)%N && (N_of_ascii ch <=? N_of_ascii "9")%N.
Definition is_lower (ch : ascii) : bool :=
  (N_of_ascii "a" <=? N_of_ascii ch)%N && (N_of_ascii ch <=? N_of_ascii "z")%N.
Definition is_upper (ch : ascii) : bool :=
  (N_of_ascii "A" <=? N_of_ascii ch)%N && (N_of_ascii ch <=? N_of_ascii "Z")%N.
Definition alphanumeric (ch : ascii) : bool := is_digit ch || is_lower ch || is_upper ch.

(** [A-Z] folded to [a-z], every other character itself. *)
Definition lowercase (ch : ascii) : ascii :=
  if is_upper ch then ascii_of_N (N_of_ascii ch + 32) else ch.

(** The content cut at every character that is not alphanumeric: the
    maximal runs of alphanumeric characters, an empty field between two
    adjacent separators, and as last field what follows the last separator. *)
Fixpoint fields (content : list ascii) : list (list ascii) :=
  match content with
  | [] => [[]]
  | ch :: rest =>
      if alphanumeric ch then
        match fields rest with
        | f :: fs => (ch :: f) :: fs
        | [] => [[ch]]
        end
      else [] :: fields rest
  end.

(** The maximal runs of alphanumeric characters of the content. *)
Definition maximal_runs (content : list ascii) : list (list ascii) :=
  filter (λ f, f ≠ []) (fields content).



(** A word as the data model has it: not empty, of [0-9a-z] only. *)
Definition valid_word (word : string) : Prop :=
  word ≠ "" ∧ Forall (λ ch, is_digit ch || is_lower ch = true) (list_ascii_of_string word).

(** The tokenization rule, in the spec's words: a character of [0-9a-z] is
    appended to the token in progress, one of [A-Z] is folded and appended,
    any other character completes a token in progress, which is emitted,
    and the token is reset.  Nothing is emitted at the end of the content. *)
Fixpoint tokenize (token : list ascii) (content : list ascii) : list string :=
  match content with
  | [] => []
  | ch :: rest =>
      if is_digit ch || is_lower ch then tokenize (token ++ [ch]) rest
      else if is_upper ch then tokenize (token ++ [lowercase ch]) rest
      else
        match token with
        | [] => tokenize [] rest
        | _ => string_of_list_ascii token :: tokenize [] rest
        end
  end.

(** The number of times [word] occurs in a list of words. *)
Definition occurrences (word : string) (words : list string) : Z :=
  Z.of_nat (length (filter (λ w, w = word) words)).

(** The characters the stream of a file delivers before it ends: none when
    the file cannot be opened. *)
Definition delivered (textFile : FileData) : list ascii :=
  match textFile with
  | CannotOpen _ => []
  | Opened content _ => content
  end.

(** The sequence of operations of a client of the accumulator. *)
Inductive Operation : Type :=
| Add (word : string)
| Clear.

Definition apply_operation `{StdHash} (acc : WordAccumulator) (op : Operation) : WordAccumulator :=
  match op with
  | Add word => AddWord word acc
  | Clear => ClearResults acc
  end.

(** The state after the operations [ops], on a fresh accumulator. *)
Definition after_operations `{StdHash} (ops : list Operation) : WordAccumulator :=
  foldl apply_operation WordAccumulator_new ops.

(** ** Notions of the proofs *)

(** The entry of [word] in one bin, if any. *)
Definition bin_entry (word : string) (bin : Bin) : option WordCountType :=
  find (λ p, String.eqb (fst p) word) bin.

(** Every bin exists, holds only words hashed to it, holds a word at most
    once, and holds counts in the range of an [int] only. *)
Record well_formed `{StdHash} (acc : WordAccumulator) : Prop := {
  wf_size : length (mBins acc) = BIN_COUNT;
  wf_placed : ∀ i bin p,
    mBins acc !! i = Some bin → p ∈ bin → binIndex (fst p) acc = i;
  wf_unique : ∀ i bin, mBins acc !! i = Some bin → NoDup bin.*1;
  wf_int : ∀ i bin,
    mBins acc !! i = Some bin → Forall (λ p, INT_MIN ≤ snd p ≤ INT_MAX) bin
}.

(** What the loop keeps true: the token in progress is the first [bufIndex]
    characters of the buffer, it fits with room for the terminator, and it
    holds folded alphanumeric characters only. *)
Record scanning (loc : ScanLocals) (token : list ascii) : Prop := {
  sc_size : length (wordBuffer loc) = buffSize;
  sc_index : bufIndex loc = length token;
  sc_bound : (length token < buffSize)%nat;
  sc_token : take (bufIndex loc) (wordBuffer loc) = token;
  sc_chars : Forall (λ ch, is_digit ch || is_lower ch = true) token
}.

(** Two states of the loop that differ at most in the characters of the
    buffer from [bufIndex] on. *)
Definition same_token (loc1 loc2 : ScanLocals) : Prop :=
  bufIndex loc1 = bufIndex loc2
  ∧ length (wordBuffer loc1) = length (wordBuffer loc2)
  ∧ take (bufIndex loc1) (wordBuffer loc1) = take (bufIndex loc2) (wordBuffer loc2).

(** Two results of the loop that differ at most in that way. *)
Definition same_result (r1 r2 : Outcome ScanLocals * FileIndexer) : Prop :=
  snd r1 = snd r2
  ∧ match fst r1, fst r2 with
    | Returns loc1, Returns loc2 => same_token loc1 loc2
    | AssertionFailed, AssertionFailed => True
    | OutOfRange, OutOfRange => True
    | _, _ => False
    end.

(** The greatest length the token in progress reaches over the content,
    [n] being its length before. *)
Fixpoint peak (n : nat) (content : list ascii) : nat :=
  match content with
  | [] => n
  | ch :: rest => if alphanumeric ch then peak (S n) rest else Nat.max n (peak 0 rest)
  end.

(** [AddWord] called with each of the words in turn. *)
Definition add_words `{StdHash} (words : list string) (idx : FileIndexer) : FileIndexer :=
  foldl (λ idx word, mWordsFound_AddWord word idx) idx words.

(** What [ProcessFile] does after the loop. *)
Definition report (filename : string) (stop : StreamEnd) (idx : FileIndexer) : FileIndexer :=
  match stop with
  | EndOfFile => idx
  | ReadError err => print (FailedReading filename err) idx
  end.

(** The file fails: it cannot be opened, or reading it fails before its end.
    [line] is the diagnostic for it. *)
Inductive file_fails (filename : string) : FileData → Line → Prop :=
| open_fails err :
    file_fails filename (CannotOpen err) (FailedToOpen filename err)
| read_fails content err :
    file_fails filename (Opened content (ReadError err)) (FailedReading filename err).

(** No maximal run of what the file delivers is longer than 2047. *)
Definition fits (textFile : FileData) : Prop :=
  ∀ run, run ∈ maximal_runs (delivered textFile) → (length run ≤ 2047)%nat.

(** The words of what the file delivers: none when it cannot be opened,
    those read before the failure when a read fails. *)
Definition words_read (textFile : FileData) : list string :=
  tokenize [] (delivered textFile).

Definition words_of_tasks (tasks : list Task) : list string :=
  concat (map (λ task, words_read (snd task)) tasks).

(** The lines [ProcessFile] writes for a file. *)
Definition diagnostics (filename : string) (textFile : FileData) : list Line :=
  match textFile with
  | CannotOpen err => [FailedToOpen filename err]
  | Opened _ (ReadError err) => [FailedReading filename err]
  | Opened _ EndOfFile => []
  end.

(** The tasks posted between two states of the indexer. *)
Definition posted_since (idx idx' : FileIndexer) : list Task :=
  drop (length (mIOService idx)) (mIOService idx').

(** The entry is a regular file, no symbolic link, named with the suffix
    ".txt". *)
Definition regular_txt (d_name : string) (e : Path) : Prop :=
  d_name ≠ "." ∧ d_name ≠ ".."
  ∧ (∃ st_mode, lstat e = Some st_mode ∧ S_ISLNK st_mode = false ∧ S_ISREG st_mode = true)
  ∧ ∃ stem, d_name = stem +:+ ".txt".

(** The entry is a directory, no symbolic link. *)
Definition directory (d_name : string) (e : Path) : Prop :=
  d_name ≠ "." ∧ d_name ≠ ".."
  ∧ ∃ st_mode, lstat e = Some st_mode ∧ S_ISLNK st_mode = false
               ∧ S_ISREG st_mode = false ∧ S_ISDIR st_mode = true.

(** The entry is one the walk passes over. *)
Definition skipped (d_name : string) (e : Path) : Prop :=
  d_name = "." ∨ d_name = ".." ∨ lstat e = None
  ∨ (∃ st_mode, lstat e = Some st_mode
                ∧ (S_ISLNK st_mode = true
                   ∨ (S_ISREG st_mode = false ∧ S_ISDIR st_mode = false)
                   ∨ (S_ISREG st_mode = true ∧ ¬ ∃ stem, d_name = stem +:+ ".txt"))).

(** The words given to [AddWord] since the last [ClearResults] (or since the
    construction), oldest first. *)
Definition added_since_clear (ops : list Operation) : list string :=
  foldl (λ words op, match op with Add word => words ++ [word] | Clear => [] end) [] ops.

(** The set of the words that have an entry in the snapshot. *)
Definition recorded_words (acc : WordAccumulator) : gset string :=
  list_to_set (allWords acc).*1.

(** The classification as it is where [char] is unsigned: [(int)ch] is the
    code of the character. *)
Definition classify_unsigned (ch : ascii) : bool * ascii :=
  let ascii := Z.of_N (N_of_ascii ch) in
  if ((48 <=? ascii) && (ascii <=? 57)) || ((97 <=? ascii) && (ascii <=? 122))
  then (true, ch)
  else if (65 <=? ascii) && (ascii <=? 90)
  then (true, char_of_int (ascii + 32))
  else (false, ch).

(** An indexer with tasks posted and lines written, and nothing else
    changed. *)
Definition extend_indexer (idx : FileIndexer) (tasks : list Task) (lines : list Line)
  : FileIndexer :=
  {| mFileProcessingThreads := mFileProcessingThreads idx;
     mWordsFound := mWordsFound idx; mIOService := mIOService idx ++ tasks;
     mIOService_stopped := mIOService_stopped idx;
     cout := cout idx ++ lines; calls := calls idx |}.

(** The tasks the walk of [dir] posts, in the order it posts them, and the
    lines it writes. *)
Definition found_files (basePath : string) (dir : Path) : list Task :=
  mIOService (SearchForFiles basePath dir (FileIndexer_new 3)).

Definition walk_lines (basePath : string) (dir : Path) : list Line :=
  cout (SearchForFiles basePath dir (FileIndexer_new 3)).

(** The indexer as the workers of [Run] find it when the walk is over and
    the handlers have left the queue: the accumulator cleared, the lines of
    the walk written. *)
Definition walked (mBasePath : string) (root : Path) (idx : FileIndexer) : FileIndexer :=
  {| mFileProcessingThreads := mFileProcessingThreads idx;
     mWordsFound := ClearResults (mWordsFound idx); mIOService := [];
     mIOService_stopped := false;
     cout := cout idx ++ walk_lines mBasePath root; calls := calls idx |}.

(** [e] is what the system answers for the names [names], followed one
    after the other from the directory [dir]: every name is an entry of the
    directory reached so far, and every name but the last is a directory
    that is no symbolic link. *)
Inductive reaches : Path → list string → Path → Prop :=
| reaches_entry dir entries d_name e :
    opendir dir = inr entries → (d_name, e) ∈ entries →
    reaches dir [d_name] e
| reaches_below dir entries d_name d names e :
    opendir dir = inr entries → (d_name, d) ∈ entries → directory d_name d →
    reaches d names e →
    reaches dir (d_name :: names) e.

(** The path of the names under [basePath], as [SearchForFiles] builds it. *)
Definition path_of (basePath : string) (names : list string) : string :=
  foldl (λ path d_name, path +:+ "/" +:+ d_name) basePath names.

(** ** ProgramOptions.h and main *)

(** What the code throws: [ProgramOptionsException] with its message, and
    the [boost::bad_any_cast] of [variable_value::as<T>()]. *)
Inductive Exception : Type :=
| ProgramOptionsException (message : string)
| bad_any_cast.

Inductive Try (A : Type) : Type :=
| Ok (a : A)
| Throw (e : Exception).
Arguments Ok {A} a.
Arguments Throw {A} e.

(** [boost::program_options::variable_value], for the options the
    constructor declares: "help" has no value, "threads" is a
    [value<int>()], "path" a [value<std::string>()]. *)
Inductive variable_value : Type :=
| empty_value
| int_value (n : Z)
| string_value (s : string).

Abbreviation variables_map := (gmap string variable_value).

(** The library behind [Parse]:
    [store(command_line_parser(argc, argv).positional(...).options(...).run(), mVarMap)]
    followed by [notify(mVarMap)], on the empty map of a new
    [ProgramOptions] and with the options of its constructor.  The result is
    the map as the two calls leave it and, when they throw a
    [boost::program_options::error], its [what()].  The constructor's
    declarations give the rest: "threads" holds an [int] and "path" a
    [std::string] wherever they are stored, and "threads", which has
    [default_value(3)], is stored whenever the two calls return. *)
Class CommandLine : Type := {
  store_notify : list string → variables_map * option string;
  threads_is_int : ∀ argv v,
    (store_notify argv).1 !! "threads" = Some v → ∃ n, v = int_value n;
  path_is_string : ∀ argv v,
    (store_notify argv).1 !! "path" = Some v → ∃ s, v = string_value s;
  threads_has_default : ∀ argv,
    (store_notify argv).2 = None → is_Some ((store_notify argv).1 !! "threads")
}.

(** The state of a [ProgramOptions]; the descriptions and the help message
    are the same in every object. *)
Record ProgramOptions : Type := { mVarMap : variables_map }.

(** [mVarMap.count(optionName)] *)
Definition mVarMap_count (optionName : string) (options : ProgramOptions) : Z :=
  match mVarMap options !! optionName with
  | Some _ => 1
  | None => 0
  end.

(** [mVarMap[optionName].as<int>()] and [.as<std::string>()]; an option that
    is not stored gives an empty [variable_value]. *)
Definition as_int (value : option variable_value) : Try Z :=
  match value with
  | Some (int_value n) => Ok n
  | _ => Throw bad_any_cast
  end.

Definition as_string (value : option variable_value) : Try string :=
  match value with
  | Some (string_value s) => Ok s
  | _ => Throw bad_any_cast
  end.

(** [Parse(argc, argv)] on a new object. *)
Definition Parse `{CommandLine} (argv : list string) : Try unit * ProgramOptions :=
  let '(parsed, error) := store_notify argv in
  let options := {| mVarMap := parsed |} in
  match error with
  | Some what =>
      if mVarMap_count "help" options =? 0
      then (Throw (ProgramOptionsException what), options)
      else (Ok (), options)
  | None =>
      if mVarMap_count "help" options =? 0 then
        if mVarMap_count "path" options <=? 0
        then (Throw (ProgramOptionsException "You must specify a PATH to index"), options)
        else
          match as_int (mVarMap options !! "threads") with
          | Throw e => (Throw e, options)
          | Ok threads =>
              if threads <=? 0
              then (Throw (ProgramOptionsException
                             "option 'threads' must be a positive integer"), options)
              else (Ok (), options)
          end
      else (Ok (), options)
  end.

Definition HelpRequested (options : ProgramOptions) : bool :=
  0 <? mVarMap_count "help" options.

(** [GetOptionValue<T>(optionName)], with [as_T] for [as<T>()]. *)
Definition GetOptionValue {T : Type} (as_T : option variable_value → Try T)
    (optionName : string) (options : ProgramOptions) : Try T :=
  if mVarMap_count optionName options =? 0
  then Throw (ProgramOptionsException ("Option '" +:+ optionName +:+ "' not found"))
  else as_T (mVarMap options !! optionName).

(** What [main] writes: the lines of the indexer and its own. *)
Inductive Output : Type :=
| What (message : string)
| EmptyLine
| HelpMessage
| PathDoesNotExist (searchPath : string)
| FromIndexer (line : Line)
| TopWord (word : string) (occurrences : Z).

(** How the process ends: [return] from [main], [std::terminate] for an
    exception nothing catches, [abort] from a failed assertion, or
    undefined behaviour. *)
Inductive Exit : Type :=
| Exits (status : Z)
| Terminated (e : Exception)
| Aborted
| Undefined.

(** [FileIndexer::ListTopWords] *)
Definition FileIndexer_ListTopWords `{StdSort} (count : Z) (idx : FileIndexer)
  : Outcome (list WordCountType) :=
  ListTopWords count (mWordsFound idx).

Definition DisplayHelp : list Output := [HelpMessage].

(** [main]; [filesystem] gives what the system answers for the search
    path. *)
Definition main `{StdHash} `{StdSort} `{CommandLine}
    (argv : list string) (filesystem : string → Path) : Exit * list Output :=
  match Parse argv with
  | (Throw (ProgramOptionsException what), _) =>
      (Exits 1, [What what; EmptyLine] ++ DisplayHelp)
  | (Throw e, _) => (Terminated e, [])
  | (Ok _, options) =>
      if HelpRequested options then (Exits 0, DisplayHelp)
      else
        match GetOptionValue as_string "path" options with
        | Throw e => (Terminated e, [])
        | Ok searchPath =>
            match GetOptionValue as_int "threads" options with
            | Throw e => (Terminated e, [])
            | Ok threadCount =>
                match opendir (filesystem searchPath) with
                | inl _ => (Exits 1, [PathDoesNotExist searchPath])
                | inr _ =>
                    let ssfi := FileIndexer_new threadCount in
                    match Run searchPath (filesystem searchPath) ssfi with
                    | (Returns _, ssfi) =>
                        match FileIndexer_ListTopWords 10 ssfi with
                        | Returns topWords =>
                            (Exits 0,
                             map FromIndexer (cout ssfi)
                             ++ map (λ word, TopWord (fst word) (snd word)) topWords)
                        | AssertionFailed => (Aborted, map FromIndexer (cout ssfi))
                        | OutOfRange => (Undefined, map FromIndexer (cout ssfi))
                        end
                    | (AssertionFailed, ssfi) => (Aborted, map FromIndexer (cout ssfi))
                    | (OutOfRange, ssfi) => (Undefined, map FromIndexer (cout ssfi))
                    end
                end
            end
        end
  end.

(** ** Sample inputs *)

(** One [std::hash]: the length of the word. *)
Definition length_StdHash : StdHash := λ word, N.of_nat (String.length word).

(** An indexer that has done nothing yet. *)
Definition fresh_indexer : FileIndexer := FileIndexer_new 3.

(** The accumulator after [a b a c a b]. *)
Definition sample_accumulator : WordAccumulator :=
  after_operations (H := length_StdHash)
    [Add "a"; Add "b"; Add "a"; Add "c"; Add "a"; Add "b"].

(** A tree: a.txt and b.txt, a directory with c.log and a symbolic link to
    a.txt, and a file A.TXT. *)
Definition sample_tree : Path :=
  let file content := PathInfo (Some 33188) (inl 20) (Opened (list_ascii_of_string content) EndOfFile) in
  PathInfo (Some 16877)
    (inr [ (".", PathInfo (Some 16877) (inl 13) (CannotOpen 21));
           ("..", PathInfo (Some 16877) (inl 13) (CannotOpen 21));
           ("a.txt", file "Hello hello WORLD!");
           ("sub", PathInfo (Some 16877)
                     (inr [ ("c.log", file "hello");
                            ("link.txt", PathInfo (Some 41471) (inl 20)
                                           (Opened (list_ascii_of_string "Hello hello WORLD!")
                                                   EndOfFile)) ])
                     (CannotOpen 21));
           ("A.TXT", file "upper case suffix ");
           ("b.txt", file "world world") ])
    (CannotOpen 21).

(** A tree with one text file of eleven different words. *)
Definition eleven_words_tree : Path :=
  PathInfo (Some 16877)
    (inr [ ("w.txt",
            PathInfo (Some 33188) (inl 20)
              (Opened (list_ascii_of_string
                         "one two two three four five six seven eight nine ten eleven two one ")
                      EndOfFile)) ])
    (CannotOpen 21).

(** A command line library for the command lines [ssfi], [ssfi --help] and
    [ssfi PATH]; more arguments are an error. *)
Definition sample_store_notify (argv : list string) : variables_map * option string :=
  match argv with
  | [_] => ({[ "threads" := int_value 3 ]}, None)
  | [_; arg] =>
      if String.eqb arg "--help"
      then ({[ "help" := empty_value; "threads" := int_value 3 ]}, None)
      else ({[ "path" := string_value arg; "threads" := int_value 3 ]}, None)
  | _ => (∅, Some "too many positional options have been specified on the command line")
  end.

(** * Properties *)

(** ** The range of an int *)

Arguments int_wrap : simpl never.

Lemma int_wrap_range z : INT_MIN ≤ int_wrap z ≤ INT_MAX.
Proof.
  unfold int_wrap, INT_MIN, INT_MAX.
  pose proof (Z.mod_pos_bound (z - -2147483648) 4294967296). lia.
Qed.

Lemma int_wrap_small z : INT_MIN ≤ z ≤ INT_MAX → int_wrap z = z.
Proof.
  unfold int_wrap, INT_MIN, INT_MAX. intros Hz. rewrite Z.mod_small; lia.
Qed.

Lemma int_wrap_add_l a b : int_wrap (int_wrap a + b) = int_wrap (a + b).
Proof.
  unfold int_wrap, INT_MIN.
  replace ((a - -2147483648) mod 4294967296 + -2147483648 + b - -2147483648)
    with ((a - -2147483648) mod 4294967296 + b) by lia.
  rewrite Zplus_mod_idemp_l. do 2 f_equal. lia.
Qed.

(** The increment changes an [int], also where it wraps around. *)
Lemma int_wrap_succ_ne z : int_wrap (z + 1) ≠ z.
Proof.
  unfold int_wrap, INT_MIN. intros Heq.
  pose proof (Z.mod_pos_bound (z + 1 - -2147483648) 4294967296) as Hbound.
  destruct (decide (z + 1 - -2147483648 < 4294967296)) as [Hlt|Hge].
  - rewrite Z.mod_small in Heq by lia. lia.
  - assert (z + 1 - -2147483648 = 4294967296) as Hz by lia.
    rewrite Hz, Z.mod_same in Heq by lia. lia.
Qed.

(** ** The accumulator *)

Lemma find_app_first {A} (f : A → bool) (l1 l2 : list A) :
  find f (l1 ++ l2) = match find f l1 with Some x => Some x | None => find f l2 end.
Proof. induction l1 as [|a l1 IH]; simpl; [done|]. by destruct (f a). Qed.

Lemma find_none_of {A} (f : A → bool) (l : list A) :
  (∀ x, x ∈ l → f x = false) → find f l = None.
Proof.
  induction l as [|a l IH]; intros Hl; simpl; [done|].
  rewrite (Hl a) by left. apply IH. intros x Hx. apply Hl. by right.
Qed.

Lemma find_some_of {A} (f : A → bool) (l : list A) x :
  find f l = Some x → x ∈ l ∧ f x = true.
Proof.
  induction l as [|a l IH]; simpl; [done|].
  destruct (f a) eqn:Hfa.
  - intros [= <-]. split; [left | done].
  - intros Hx. destruct (IH Hx). split; [by right | done].
Qed.

Lemma allWords_from (bins : list Bin) (all : list WordCountType) :
  foldl (λ all bin, if (length bin <=? 0)%nat then all else all ++ bin) all bins
  = all ++ concat bins.
Proof.
  revert all. induction bins as [|bin bins IH]; intros all; simpl.
  - by rewrite app_nil_r.
  - rewrite IH. destruct bin as [|p bin]; simpl; [done|].
    by rewrite <- app_assoc.
Qed.

(** The snapshot is the bins one after the other. *)
Lemma allWords_concat acc : allWords acc = concat (mBins acc).
Proof. unfold allWords. by rewrite allWords_from. Qed.

Lemma GetUniqueWordCount_from (bins : list Bin) (n : nat) :
  foldl (λ totalWords bin, (totalWords + length bin)%nat) n bins
  = (n + length (concat bins))%nat.
Proof.
  revert n. induction bins as [|bin bins IH]; intros n; simpl; [lia|].
  rewrite IH, length_app. lia.
Qed.

Lemma GetUniqueWordCount_allWords acc :
  GetUniqueWordCount acc = length (allWords acc).
Proof. unfold GetUniqueWordCount. by rewrite GetUniqueWordCount_from, allWords_concat. Qed.

(** *** One bin *)

Lemma bin_entry_key word bin p : bin_entry word bin = Some p → fst p = word ∧ p ∈ bin.
Proof.
  intros Hp. apply find_some_of in Hp as [Hin Heq].
  by apply String.eqb_eq in Heq.
Qed.

Lemma bin_entry_absent word bin : word ∉ bin.*1 → bin_entry word bin = None.
Proof.
  intros Hw. apply find_none_of. intros p Hp. apply String.eqb_neq.
  intros <-. apply Hw. by apply list_elem_of_fmap_2.
Qed.

Lemma AddWord_bin_entry word bin :
  bin_entry word (AddWord_bin word bin)
  = Some (word, int_wrap (from_option snd 0 (bin_entry word bin) + 1)).
Proof.
  unfold bin_entry. induction bin as [|[w c] bin IH]; simpl.
  - by rewrite String.eqb_refl.
  - destruct (String.eqb w word) eqn:Hw; simpl; rewrite Hw; [|done].
    apply String.eqb_eq in Hw. by subst.
Qed.

Lemma AddWord_bin_entry_other word word' bin :
  word ≠ word' → bin_entry word (AddWord_bin word' bin) = bin_entry word bin.
Proof.
  intros Hne.
  assert (String.eqb word' word = false) as Hf by (apply String.eqb_neq; congruence).
  unfold bin_entry. induction bin as [|[w c] bin IH]; simpl.
  - by rewrite Hf.
  - destruct (String.eqb w word') eqn:Hw; simpl.
    + apply String.eqb_eq in Hw as ->. by rewrite Hf.
    + by rewrite IH.
Qed.

Lemma AddWord_bin_elem word bin p :
  p ∈ AddWord_bin word bin → fst p = word ∨ p ∈ bin.
Proof.
  induction bin as [|[w c] bin IH]; simpl.
  - intros ->%list_elem_of_singleton. by left.
  - destruct (String.eqb w word) eqn:Hw.
    + apply String.eqb_eq in Hw as ->.
      intros [->|Hp]%elem_of_cons; [by left | right; by right].
    + intros [->|Hp]%elem_of_cons; [right; left|].
      destruct (IH Hp); [by left | right; by right].
Qed.

Lemma AddWord_bin_keys word bin :
  (AddWord_bin word bin).*1 = if decide (word ∈ bin.*1) then bin.*1 else bin.*1 ++ [word].
Proof.
  induction bin as [|[w c] bin IH].
  - destruct (decide (word ∈ ([] : Bin).*1)) as [Hin|Hin]; [|done].
    by apply not_elem_of_nil in Hin.
  - cbn [AddWord_bin fst snd].
    change (((w, c) :: bin).*1) with (w :: bin.*1).
    destruct (String.eqb w word) eqn:Hw.
    + apply String.eqb_eq in Hw as ->.
      change (((word, int_wrap (c + 1)) :: bin).*1) with (word :: bin.*1).
      rewrite decide_True; [done | left].
    + apply String.eqb_neq in Hw.
      change (((w, c) :: AddWord_bin word bin).*1) with (w :: (AddWord_bin word bin).*1).
      rewrite IH.
      destruct (decide (word ∈ bin.*1)) as [Hin|Hin].
      * rewrite decide_True; [done | by right].
      * rewrite decide_False; [done|].
        intros [?|?]%elem_of_cons; congruence.
Qed.

Lemma AddWord_bin_NoDup word bin : NoDup bin.*1 → NoDup (AddWord_bin word bin).*1.
Proof.
  intros Hnd. rewrite AddWord_bin_keys. case_decide; [done|].
  apply NoDup_app. split_and!; [done | | apply NoDup_singleton].
  intros w Hw ->%list_elem_of_singleton. done.
Qed.

Lemma AddWord_bin_int word bin :
  Forall (λ p, INT_MIN ≤ snd p ≤ INT_MAX) bin →
  Forall (λ p, INT_MIN ≤ snd p ≤ INT_MAX) (AddWord_bin word bin).
Proof.
  induction 1 as [|[w c] bin Hc Hbin IH]; simpl.
  - constructor; [done | constructor].
  - destruct (String.eqb w word); constructor; simpl in *;
      [apply int_wrap_range | done | done | done].
Qed.

Lemma AddWord_bin_changes word bin : AddWord_bin word bin ≠ bin.
Proof.
  induction bin as [|[w c] bin IH]; simpl; [done|].
  destruct (String.eqb w word).
  - intros [= Hc]. by apply int_wrap_succ_ne in Hc.
  - intros [= Hb]. done.
Qed.

(** *** The invariant of the accumulator *)

Lemma BIN_COUNT_pos : (0 < BIN_COUNT)%nat.
Proof. unfold BIN_COUNT. lia. Qed.

Lemma BIN_COUNT_value : N.of_nat BIN_COUNT = 32767%N.
Proof. unfold BIN_COUNT. lia. Qed.

#[local] Opaque BIN_COUNT.

Section AccumulatorInvariant.
Context `{StdHash}.

Lemma binIndex_lt word acc :
  length (mBins acc) = BIN_COUNT → (binIndex word acc < length (mBins acc))%nat.
Proof.
  intros Hl. unfold binIndex. pose proof BIN_COUNT_pos as Hpos.
  assert (std_hash word mod N.of_nat (length (mBins acc))
          < N.of_nat (length (mBins acc)))%N as Hlt by (apply N.mod_lt; lia).
  lia.
Qed.

Lemma binIndex_same_size word acc acc' :
  length (mBins acc') = length (mBins acc) → binIndex word acc' = binIndex word acc.
Proof. unfold binIndex. by intros ->. Qed.

Lemma binIndex_AddWord word word' acc :
  binIndex word (AddWord word' acc) = binIndex word acc.
Proof. apply binIndex_same_size. simpl. apply length_alter. Qed.

Lemma binIndex_ClearResults word acc :
  binIndex word (ClearResults acc) = binIndex word acc.
Proof. apply binIndex_same_size. simpl. apply length_map. Qed.

Lemma well_formed_new : well_formed WordAccumulator_new.
Proof.
  split; simpl.
  - apply length_replicate.
  - intros i bin p [-> _]%lookup_replicate Hp. by apply not_elem_of_nil in Hp.
  - intros i bin [-> _]%lookup_replicate. constructor.
  - intros i bin [-> _]%lookup_replicate. constructor.
Qed.

Lemma well_formed_ClearResults acc : well_formed acc → well_formed (ClearResults acc).
Proof.
  intros [Hsize _ _ _].
  assert (∀ i bin, map (λ _ : Bin, ([] : Bin)) (mBins acc) !! i = Some bin → bin = [])
    as Hempty.
  { intros i bin Hi. apply list_elem_of_lookup_2, list_elem_of_In, in_map_iff in Hi.
    by destruct Hi as (? & <- & _). }
  split; simpl.
  - by rewrite length_map.
  - intros i bin p ->%Hempty Hp. by apply not_elem_of_nil in Hp.
  - intros i bin ->%Hempty. constructor.
  - intros i bin ->%Hempty. constructor.
Qed.

Lemma AddWord_lookup word acc i bin :
  mBins (AddWord word acc) !! i = Some bin →
  (i = binIndex word acc ∧ ∃ bin0, mBins acc !! i = Some bin0 ∧ bin = AddWord_bin word bin0)
  ∨ (i ≠ binIndex word acc ∧ mBins acc !! i = Some bin).
Proof.
  simpl. destruct (decide (i = binIndex word acc)) as [->|Hne].
  - rewrite list_lookup_alter_eq. intros Hb. left. split; [done|].
    destruct (mBins acc !! binIndex word acc) as [bin0|]; simplify_eq/=. eauto.
  - rewrite list_lookup_alter_ne by done. intros Hb. by right.
Qed.

Lemma well_formed_AddWord word acc : well_formed acc → well_formed (AddWord word acc).
Proof.
  intros [Hsize Hplaced Hunique Hint]. split.
  - simpl. by rewrite length_alter.
  - intros i bin p Hb Hp. rewrite binIndex_AddWord.
    apply AddWord_lookup in Hb as [(-> & bin0 & Hb0 & ->)|[Hne Hb]].
    + apply AddWord_bin_elem in Hp as [->|Hp]; [done | by eapply Hplaced].
    + by eapply Hplaced.
  - intros i bin Hb.
    apply AddWord_lookup in Hb as [(-> & bin0 & Hb0 & ->)|[Hne Hb]].
    + eapply AddWord_bin_NoDup, Hunique; done.
    + by eapply Hunique.
  - intros i bin Hb.
    apply AddWord_lookup in Hb as [(-> & bin0 & Hb0 & ->)|[Hne Hb]].
    + eapply AddWord_bin_int, Hint; done.
    + by eapply Hint.
Qed.

Lemma well_formed_apply acc op : well_formed acc → well_formed (apply_operation acc op).
Proof.
  destruct op; simpl; auto using well_formed_AddWord, well_formed_ClearResults.
Qed.

Lemma well_formed_foldl ops acc :
  well_formed acc → well_formed (foldl apply_operation acc ops).
Proof.
  revert acc. induction ops as [|op ops IH]; intros acc Hwf; simpl; [done|].
  by apply IH, well_formed_apply.
Qed.

(** Every state a client can reach satisfies the invariant. *)
Lemma well_formed_after ops : well_formed (after_operations ops).
Proof. apply well_formed_foldl, well_formed_new. Qed.

(** *** Where the entry of a word is *)

Lemma entry_absent_concat word (bins : list Bin) :
  (∀ bin p, bin ∈ bins → p ∈ bin → fst p ≠ word) →
  find (λ p, String.eqb (fst p) word) (concat bins) = None.
Proof.
  intros Hno. apply find_none_of. intros p Hp.
  apply list_elem_of_In, in_concat in Hp as (bin & Hbin & Hp).
  apply String.eqb_neq. eapply Hno; by apply list_elem_of_In.
Qed.

(** The snapshot has the entry of a word where its own bin has it. *)
Lemma entry_of_bin word acc :
  well_formed acc →
  entry_of word acc = bin_entry word (default [] (mBins acc !! binIndex word acc)).
Proof.
  intros Hwf. unfold entry_of. rewrite allWords_concat.
  pose proof (binIndex_lt word acc (wf_size _ Hwf)) as Hlt.
  destruct (lookup_lt_is_Some_2 _ _ Hlt) as [bin Hbin]. rewrite Hbin. simpl.
  rewrite <- (take_drop_middle _ _ _ Hbin) at 1.
  rewrite concat_app, concat_cons, !find_app_first.
  rewrite entry_absent_concat.
  - fold (bin_entry word bin). destruct (bin_entry word bin); [done|].
    apply entry_absent_concat. intros bin' p Hbin' Hp Hkey.
    apply list_elem_of_lookup in Hbin' as [j Hj]. rewrite lookup_drop in Hj.
    pose proof (wf_placed _ Hwf _ _ _ Hj Hp) as Hidx. rewrite Hkey in Hidx. lia.
  - intros bin' p Hbin' Hp Hkey.
    apply elem_of_take in Hbin' as (j & Hj & Hlt').
    pose proof (wf_placed _ Hwf _ _ _ Hj Hp) as Hidx. rewrite Hkey in Hidx. lia.
Qed.

Lemma entry_of_AddWord word acc :
  well_formed acc →
  entry_of word (AddWord word acc) = Some (word, int_wrap (count_of word acc + 1)).
Proof.
  intros Hwf. unfold count_of.
  rewrite !entry_of_bin by auto using well_formed_AddWord.
  rewrite binIndex_AddWord. simpl. rewrite list_lookup_alter_eq.
  pose proof (binIndex_lt word acc (wf_size _ Hwf)) as Hlt.
  destruct (lookup_lt_is_Some_2 _ _ Hlt) as [bin ->]. simpl.
  apply AddWord_bin_entry.
Qed.

Lemma entry_of_AddWord_other word word' acc :
  well_formed acc → word ≠ word' →
  entry_of word (AddWord word' acc) = entry_of word acc.
Proof.
  intros Hwf Hne.
  rewrite !entry_of_bin by auto using well_formed_AddWord.
  rewrite binIndex_AddWord. simpl.
  destruct (decide (binIndex word acc = binIndex word' acc)) as [Heq|Hidx].
  - rewrite Heq, list_lookup_alter_eq.
    destruct (mBins acc !! binIndex word' acc) as [bin|]; simpl; [|done].
    by apply AddWord_bin_entry_other.
  - by rewrite list_lookup_alter_ne.
Qed.

(** [AddWord] increments the count of its word and of no other. *)
Lemma count_of_AddWord word word' acc :
  well_formed acc →
  count_of word (AddWord word' acc)
  = if decide (word = word') then int_wrap (count_of word acc + 1) else count_of word acc.
Proof.
  intros Hwf. case_decide as Hw.
  - subst word'. unfold count_of at 1. by rewrite entry_of_AddWord.
  - unfold count_of. by rewrite entry_of_AddWord_other.
Qed.

Lemma count_of_new word : count_of word WordAccumulator_new = 0.
Proof.
  unfold count_of. rewrite entry_of_bin by apply well_formed_new. simpl.
  destruct (replicate BIN_COUNT [] !! _) as [bin|] eqn:Hb; [|done].
  by apply lookup_replicate in Hb as [-> _].
Qed.
Lemma count_of_ClearResults word acc :
  well_formed acc → count_of word (ClearResults acc) = 0.
Proof.
  intros Hwf. unfold count_of.
  rewrite entry_of_bin by by apply well_formed_ClearResults. simpl.
  destruct (map (λ _, []) (mBins acc) !! _) as [bin|] eqn:Hbin; [|done].
  apply list_elem_of_lookup_2, list_elem_of_In, in_map_iff in Hbin.
  by destruct Hbin as (? & <- & _).
Qed.

(** A count is in the range of an [int]. *)
Lemma count_of_int word acc : well_formed acc → INT_MIN ≤ count_of word acc ≤ INT_MAX.
Proof.
  intros Hwf. unfold count_of.
  destruct (entry_of word acc) as [p|] eqn:Hentry; simpl; [|done].
  apply find_some_of in Hentry as [Hin _]. rewrite allWords_concat in Hin.
  apply list_elem_of_In, in_concat in Hin as (bin & Hbin & Hin).
  apply list_elem_of_In, list_elem_of_lookup in Hbin as [i Hi].
  pose proof (wf_int _ Hwf _ _ Hi) as Hint. rewrite Forall_forall in Hint.
  by apply Hint, list_elem_of_In.
Qed.
End AccumulatorInvariant.

(** *** Sorting by occurrence *)

Lemma by_occurrence_order : StrictWeakOrder by_occurrence.
Proof.
  split; unfold by_occurrence; intros.
  - apply Z.ltb_irrefl.
  - apply Z.ltb_lt. apply Z.ltb_lt in H, H0. lia.
  - apply Z.ltb_ge. apply Z.ltb_ge in H, H0. lia.
Qed.

(** One [std::sort]: stdpp's merge sort along [comp]. *)
Definition not_before {A} (comp : A → A → bool) : relation A := λ a b, comp b a = false.

#[local] Instance not_before_dec {A} (comp : A → A → bool) a b :
  Decision (not_before comp a b).
Proof. unfold not_before. apply _. Defined.

Lemma merge_sort_perm A (comp : A → A → bool) l :
  merge_sort (not_before comp) l ≡ₚ l.
Proof. apply merge_sort_Permutation. Qed.

Lemma merge_sort_sorted A (comp : A → A → bool) l :
  StrictWeakOrder comp →
  StronglySorted (λ a b, comp b a = false) (merge_sort (not_before comp) l).
Proof.
  intros [Hirr Htrans Hinc].
  assert (Transitive (not_before comp)) as Htr.
  { intros a b c Hab Hbc. by apply (Hinc c b a). }
  assert (Total (not_before comp)) as Htot.
  { intros a b. unfold not_before. destruct (comp b a) eqn:Hba; [|by left].
    right. destruct (comp a b) eqn:Hab; [|done].
    by rewrite <- (Hirr a), (Htrans a b a). }
  apply (StronglySorted_merge_sort (not_before comp)).
Qed.

Definition merge_StdSort : StdSort :=
  {| std_sort A comp l := merge_sort (not_before comp) l;
     std_sort_perm := merge_sort_perm;
     std_sort_sorted := merge_sort_sorted |}.

Lemma StronglySorted_weaken {A} (R R' : A → A → Prop) l :
  (∀ a b, R a b → R' a b) → StronglySorted R l → StronglySorted R' l.
Proof.
  intros HR. induction 1 as [|a l Hl IH Ha]; constructor; [done|].
  eapply Forall_impl; [exact Ha | auto].
Qed.

Lemma StronglySorted_take {A} (R : A → A → Prop) n l :
  StronglySorted R l → StronglySorted R (take n l).
Proof.
  intros Hl. revert n. induction Hl as [|a l Hl IH Ha]; intros [|n]; simpl;
    try constructor; [apply IH|].
  apply Forall_take, Ha.
Qed.

Section TopWords.
Context `{StdSort}.

Lemma ListTopWords_empty count acc :
  allWords acc = [] → ListTopWords count acc = Returns [].
Proof. unfold ListTopWords. by intros ->. Qed.

Lemma ListTopWords_in_range count acc :
  0 ≤ count ≤ Z.of_nat (length (allWords acc)) →
  ListTopWords count acc
  = Returns (take (Z.to_nat count) (std_sort by_occurrence (allWords acc))).
Proof.
  intros Hcount. unfold ListTopWords.
  pose proof (Permutation_length (std_sort_perm _ by_occurrence (allWords acc))) as Hlen.
  destruct (length (allWords acc) <=? 0)%nat eqn:Hall.
  - apply Nat.leb_le in Hall.
    destruct (std_sort by_occurrence (allWords acc)); [|simpl in Hlen; lia].
    destruct (allWords acc); [|simpl in Hall; lia].
    by rewrite take_nil.
  - rewrite Hlen.
    assert ((0 <=? count) && (count <=? Z.of_nat (length (allWords acc))) = true)
      as -> by (apply andb_true_intro; split; apply Z.leb_le; lia).
    done.
Qed.

Lemma ListTopWords_out_of_range count acc :
  allWords acc ≠ [] →
  count < 0 ∨ Z.of_nat (length (allWords acc)) < count →
  ListTopWords count acc = OutOfRange.
Proof.
  intros Hne Hcount. unfold ListTopWords.
  rewrite (Permutation_length (std_sort_perm _ by_occurrence (allWords acc))).
  destruct (length (allWords acc) <=? 0)%nat eqn:Hall.
  - apply Nat.leb_le in Hall. destruct (allWords acc); [done | simpl in Hall; lia].
  - assert ((0 <=? count) && (count <=? Z.of_nat (length (allWords acc))) = false)
      as ->; [|done].
    apply andb_false_iff. destruct Hcount; [left | right]; apply Z.leb_gt; lia.
Qed.

Lemma std_sort_by_occurrence l :
  StronglySorted (λ a b : WordCountType, snd b ≤ snd a) (std_sort by_occurrence l).
Proof.
  eapply StronglySorted_weaken; [|apply std_sort_sorted, by_occurrence_order].
  unfold by_occurrence. intros a b Hab. by apply Z.ltb_ge in Hab.
Qed.
End TopWords.

Lemma concat_replicate_nil {A} n : concat (replicate n ([] : list A)) = [].
Proof. induction n; simpl; auto. Qed.

Lemma concat_alter_replicate_nil {A} (f : list A → list A) i n :
  (i < n)%nat → concat (alter f i (replicate n [])) = f [].
Proof.
  revert i. induction n as [|n IH]; intros i Hi; [lia|].
  destruct i as [|i]; simpl.
  - by rewrite concat_replicate_nil, app_nil_r.
  - apply IH. lia.
Qed.

(** The snapshot after one [AddWord] on a fresh accumulator. *)
Lemma allWords_first_word `{StdHash} word :
  allWords (AddWord word WordAccumulator_new) = [(word, 1)].
Proof.
  rewrite allWords_concat. simpl. rewrite concat_alter_replicate_nil; [done|].
  pose proof (binIndex_lt word WordAccumulator_new) as Hlt. simpl in Hlt.
  rewrite length_replicate in Hlt. by apply Hlt.
Qed.

(** ** The scanner *)

(** *** Characters *)

Ltac every_char ch :=
  destruct ch as [[] [] [] [] [] [] [] []]; vm_compute; try reflexivity; try discriminate.

(** The tests on [(int)ch] pick the alphanumeric characters, and the stored
    character is the folded one. *)
Lemma classify_spec ch : classify ch = (alphanumeric ch, lowercase ch).
Proof. every_char ch. Qed.

Lemma lowercase_kept ch : is_digit ch || is_lower ch = true → lowercase ch = ch.
Proof. every_char ch. Qed.

Lemma lowercase_class ch :
  alphanumeric ch = true → is_digit (lowercase ch) || is_lower (lowercase ch) = true.
Proof. every_char ch. Qed.

Lemma not_NUL ch : is_digit ch || is_lower ch = true → Ascii.eqb ch NUL = false.
Proof. every_char ch. Qed.

Lemma alphanumeric_cases ch :
  alphanumeric ch = (is_digit ch || is_lower ch) || is_upper ch.
Proof. reflexivity. Qed.

(** *** The word buffer *)

Lemma c_str_app_NUL (token rest : list ascii) :
  Forall (λ ch, is_digit ch || is_lower ch = true) token →
  c_str (token ++ NUL :: rest) = token.
Proof.
  induction 1 as [|ch token Hch Htoken IH]; simpl; [done|].
  by rewrite (not_NUL _ Hch), IH.
Qed.

(** The C string read after [wordBuffer[n] = 0] is the first [n] characters. *)
Lemma c_str_terminated (buf : list ascii) n :
  (n < length buf)%nat →
  Forall (λ ch, is_digit ch || is_lower ch = true) (take n buf) →
  c_str (<[n := NUL]> buf) = take n buf.
Proof.
  intros Hn Htoken.
  rewrite <- (take_drop n buf) at 1.
  rewrite insert_app_r_alt by (rewrite length_take; lia).
  rewrite length_take, Nat.min_l, Nat.sub_diag by lia.
  destruct (drop n buf) as [|ch rest] eqn:Hdrop.
  - apply (f_equal length) in Hdrop. rewrite length_drop in Hdrop. simpl in Hdrop. lia.
  - simpl. by apply c_str_app_NUL.
Qed.

Lemma scanning_start (buf : list ascii) :
  length buf = buffSize → scanning {| wordBuffer := buf; bufIndex := 0 |} [].
Proof. intros Hbuf. split; simpl; try done. unfold buffSize. lia. Qed.

Lemma new_wordBuffer_size : length new_wordBuffer = buffSize.
Proof. apply length_replicate. Qed.

Lemma buffSize_value : buffSize = 2048%nat.
Proof. reflexivity. Qed.

#[local] Opaque buffSize.

Section ScanStep.
Context `{StdHash}.

(** An alphanumeric character is folded and appended. *)
Lemma scan_char_append ch loc token idx :
  scanning loc token → alphanumeric ch = true → (S (length token) < buffSize)%nat →
  ∃ loc', scan_char ch loc idx = (Returns loc', idx)
          ∧ scanning loc' (token ++ [lowercase ch]).
Proof.
  intros [Hsize Hidx Hbound Htoken Hchars] Hch Hroom.
  unfold scan_char, store. rewrite classify_spec, Hch.
  rewrite decide_True by lia. rewrite decide_True by lia.
  eexists. split; [done|]. split; simpl.
  - by rewrite length_insert.
  - rewrite length_app. simpl. lia.
  - rewrite length_app. simpl. lia.
  - rewrite (take_S_r _ _ (lowercase ch)).
    + by rewrite take_insert_ge, Htoken by lia.
    + apply list_lookup_insert_eq. lia.
  - apply Forall_app. split; [done|]. repeat constructor. by apply lowercase_class.
Qed.

(** The character that fills the buffer is stored, then the assertion fails. *)
Lemma scan_char_overflow ch loc token idx :
  scanning loc token → alphanumeric ch = true → S (length token) = buffSize →
  scan_char ch loc idx = (AssertionFailed, idx).
Proof.
  intros [Hsize Hidx Hbound Htoken Hchars] Hch Hfull.
  unfold scan_char, store. rewrite classify_spec, Hch.
  rewrite decide_True by lia. by rewrite decide_False by lia.
Qed.

(** Any other character completes a token in progress: one [AddWord] call
    with it, and the token is reset. *)
Lemma scan_char_complete ch loc token idx :
  scanning loc token → alphanumeric ch = false → token ≠ [] →
  ∃ loc', scan_char ch loc idx
          = (Returns loc', mWordsFound_AddWord (string_of_list_ascii token) idx)
          ∧ scanning loc' [].
Proof.
  intros [Hsize Hidx Hbound Htoken Hchars] Hch Htok.
  unfold scan_char, store. rewrite classify_spec, Hch.
  assert (0 < length token)%nat by (destruct token; simpl; [done | lia]).
  rewrite decide_True by lia. rewrite decide_True by lia.
  rewrite c_str_terminated by first [lia | by rewrite Htoken].
  rewrite Htoken. eexists. split; [done|].
  apply scanning_start. by rewrite length_insert.
Qed.

(** A separator with no token in progress does nothing. *)
Lemma scan_char_skip ch loc idx :
  scanning loc [] → alphanumeric ch = false →
  scan_char ch loc idx = (Returns loc, idx).
Proof.
  intros [Hsize Hidx Hbound Htoken Hchars] Hch.
  unfold scan_char. rewrite classify_spec, Hch.
  simpl in Hidx. by rewrite decide_False by lia.
Qed.
End ScanStep.

(** *** The initial content of the buffer *)

Lemma c_str_prefix (token rest : list ascii) : c_str (token ++ NUL :: rest) = c_str token.
Proof. induction token as [|ch token IH]; simpl; [done|]. by rewrite IH. Qed.

(** The C string read after [wordBuffer[n] = 0] depends on the first [n]
    characters only. *)
Lemma c_str_insert_NUL (buf : list ascii) n :
  (n < length buf)%nat → c_str (<[n := NUL]> buf) = c_str (take n buf).
Proof.
  intros Hn. rewrite <- (take_drop n buf) at 1.
  rewrite insert_app_r_alt by (rewrite length_take; lia).
  rewrite length_take, Nat.min_l, Nat.sub_diag by lia.
  destruct (drop n buf) as [|ch rest] eqn:Hdrop.
  - apply (f_equal length) in Hdrop. rewrite length_drop in Hdrop. simpl in Hdrop. lia.
  - simpl. apply c_str_prefix.
Qed.

Lemma scan_char_same_token `{StdHash} ch loc1 loc2 idx :
  same_token loc1 loc2 → same_result (scan_char ch loc1 idx) (scan_char ch loc2 idx).
Proof.
  intros (Hindex & Hsize & Htoken). unfold scan_char, store.
  destruct (classify ch) as [[] ch']; rewrite <- Hindex, <- Hsize.
  - destruct (decide (bufIndex loc1 < length (wordBuffer loc1))%nat) as [Hin|]; [|done].
    destruct (decide (S (bufIndex loc1) < buffSize)%nat); [|done].
    split; [done|]. unfold same_token. simpl. rewrite !length_insert.
    split_and!; try done.
    rewrite !(take_S_r _ _ ch') by (apply list_lookup_insert_eq; lia).
    rewrite !take_insert_ge by lia. by rewrite Htoken, Hindex.
  - destruct (decide (0 < bufIndex loc1)%nat); [|done].
    destruct (decide (bufIndex loc1 < length (wordBuffer loc1))%nat) as [Hin|]; [|done].
    rewrite !c_str_insert_NUL by lia. rewrite Htoken, Hindex.
    split; [done|]. unfold same_token. simpl. by rewrite !length_insert.
Qed.

Lemma scan_loop_same_token `{StdHash} content loc1 loc2 idx :
  same_token loc1 loc2 → same_result (scan_loop content loc1 idx) (scan_loop content loc2 idx).
Proof.
  revert loc1 loc2 idx. induction content as [|ch rest IH]; intros loc1 loc2 idx Hsame.
  { done. }
  simpl. pose proof (scan_char_same_token ch loc1 loc2 idx Hsame) as [Hidx Hloc].
  destruct (scan_char ch loc1 idx) as [[loc1'| |] idx1],
           (scan_char ch loc2 idx) as [[loc2'| |] idx2]; simpl in *; subst; try done.
  by apply IH.
Qed.

(** Whatever the buffer holds at first, the scan ends in the same way with
    the same calls made. *)
Lemma scan_loop_any_buffer `{StdHash} content (buf : list ascii) idx :
  length buf = buffSize →
  same_result (scan_loop content {| wordBuffer := buf; bufIndex := 0 |} idx)
              (scan_loop content {| wordBuffer := new_wordBuffer; bufIndex := 0 |} idx).
Proof.
  intros Hbuf. apply scan_loop_same_token.
  split_and!; simpl; try done; by rewrite Hbuf, new_wordBuffer_size.
Qed.

(** *** The loop *)

Lemma peak_ge n content : (n ≤ peak n content)%nat.
Proof.
  revert n. induction content as [|ch rest IH]; intros n; simpl; [lia|].
  destruct (alphanumeric ch); [specialize (IH (S n)) | ]; lia.
Qed.

Section ScanLoop.
Context `{StdHash}.

Lemma add_words_cons word words idx :
  add_words (word :: words) idx = add_words words (mWordsFound_AddWord word idx).
Proof. done. Qed.

Lemma add_words_app words1 words2 idx :
  add_words (words1 ++ words2) idx = add_words words2 (add_words words1 idx).
Proof. apply foldl_app. Qed.

Lemma add_words_calls words idx : calls (add_words words idx) = calls idx ++ words.
Proof.
  revert idx. induction words as [|w words IH]; intros idx.
  - simpl. by rewrite app_nil_r.
  - rewrite add_words_cons, IH. simpl. by rewrite <- app_assoc.
Qed.

Lemma add_words_cout words idx : cout (add_words words idx) = cout idx.
Proof.
  revert idx. induction words as [|w words IH]; intros idx; [done|].
  by rewrite add_words_cons, IH.
Qed.

Lemma add_words_mIOService words idx : mIOService (add_words words idx) = mIOService idx.
Proof.
  revert idx. induction words as [|w words IH]; intros idx; [done|].
  by rewrite add_words_cons, IH.
Qed.

Lemma add_words_mWordsFound words idx :
  mWordsFound (add_words words idx)
  = foldl (λ acc word, AddWord word acc) (mWordsFound idx) words.
Proof.
  revert idx. induction words as [|w words IH]; intros idx; [done|].
  by rewrite add_words_cons, IH.
Qed.

Lemma scan_loop_app content1 content2 loc idx :
  scan_loop (content1 ++ content2) loc idx
  = match scan_loop content1 loc idx with
    | (Returns loc', idx') => scan_loop content2 loc' idx'
    | failed => failed
    end.
Proof.
  revert loc idx. induction content1 as [|ch rest IH]; intros loc idx; simpl; [done|].
  destruct (scan_char ch loc idx) as [[loc'| |] idx']; auto.
Qed.

(** While no token outgrows the buffer the loop runs to its end, and the
    [AddWord] calls are those of the tokenization rule. *)
Lemma scan_loop_returns content loc token idx :
  scanning loc token → (peak (length token) content < buffSize)%nat →
  ∃ loc' token',
    scan_loop content loc idx = (Returns loc', add_words (tokenize token content) idx)
    ∧ scanning loc' token'.
Proof.
  revert loc token idx.
  induction content as [|ch rest IH]; intros loc token idx Hloc Hpeak; simpl in *.
  { by exists loc, token. }
  rewrite alphanumeric_cases in Hpeak.
  destruct (is_digit ch || is_lower ch) eqn:Hlow; simpl in Hpeak.
  - pose proof (peak_ge (S (length token)) rest).
    destruct (scan_char_append ch loc token idx Hloc) as (loc1 & -> & Hloc1);
      [by rewrite alphanumeric_cases, Hlow | lia |].
    rewrite lowercase_kept in Hloc1 by done.
    apply IH; [done|]. rewrite length_app. simpl. by rewrite Nat.add_1_r.
  - destruct (is_upper ch) eqn:Hup.
    + pose proof (peak_ge (S (length token)) rest).
      destruct (scan_char_append ch loc token idx Hloc) as (loc1 & -> & Hloc1);
        [by rewrite alphanumeric_cases, Hlow, Hup | lia |].
      apply IH; [done|]. rewrite length_app. simpl. by rewrite Nat.add_1_r.
    + assert (alphanumeric ch = false) as Hch by by rewrite alphanumeric_cases, Hlow, Hup.
      destruct token as [|c token].
      * rewrite (scan_char_skip ch loc idx Hloc Hch). apply (IH loc []); [done|].
        simpl. lia.
      * destruct (scan_char_complete ch loc (c :: token) idx Hloc Hch)
          as (loc1 & -> & Hloc1); [done|].
        rewrite add_words_cons. apply (IH loc1 []); [done|]. simpl. lia.
Qed.

(** Once a token outgrows the buffer the assertion fails; the calls made
    until then are the first ones of the rule. *)
Lemma scan_loop_aborts content loc token idx :
  scanning loc token → (buffSize ≤ peak (length token) content)%nat →
  ∃ words,
    scan_loop content loc idx = (AssertionFailed, add_words words idx)
    ∧ words `prefix_of` tokenize token content.
Proof.
  revert loc token idx.
  induction content as [|ch rest IH]; intros loc token idx Hloc Hpeak; simpl in *.
  { pose proof (sc_bound _ _ Hloc). lia. }
  pose proof (sc_bound _ _ Hloc) as Hbound.
  rewrite alphanumeric_cases in Hpeak.
  assert (∀ token', token' = token ++ [lowercase ch] → alphanumeric ch = true →
          ∃ words, match scan_char ch loc idx with
                   | (Returns loc', idx') => scan_loop rest loc' idx'
                   | failed => failed
                   end = (AssertionFailed, add_words words idx)
                   ∧ words `prefix_of` tokenize token' rest) as Happend.
  { intros token' -> Hch.
    assert (peak (length (token ++ [lowercase ch])) rest = peak (S (length token)) rest)
      as Hlen by (rewrite length_app; simpl; by rewrite Nat.add_1_r).
    destruct (decide (S (length token) = buffSize)) as [Hfull|Hroom].
    - rewrite (scan_char_overflow ch loc token idx Hloc Hch Hfull).
      exists []. split; [done | apply prefix_nil].
    - destruct (scan_char_append ch loc token idx Hloc Hch) as (loc1 & -> & Hloc1);
        [lia|].
      apply IH; [done|]. rewrite Hlen.
      rewrite alphanumeric_cases in Hch. by rewrite Hch in Hpeak. }
  destruct (is_digit ch || is_lower ch) eqn:Hlow; simpl in Hpeak.
  - apply Happend; [by rewrite lowercase_kept | by rewrite alphanumeric_cases, Hlow].
  - destruct (is_upper ch) eqn:Hup.
    + apply Happend; [done | by rewrite alphanumeric_cases, Hlow, Hup].
    + assert (alphanumeric ch = false) as Hch by by rewrite alphanumeric_cases, Hlow, Hup.
      destruct token as [|c token].
      * rewrite (scan_char_skip ch loc idx Hloc Hch). apply (IH loc []); [done|].
        simpl in *. lia.
      * destruct (scan_char_complete ch loc (c :: token) idx Hloc Hch)
          as (loc1 & -> & Hloc1); [done|].
        destruct (IH loc1 [] (mWordsFound_AddWord (string_of_list_ascii (c :: token)) idx)
                    Hloc1) as (words & -> & Hprefix); [simpl in *; lia|].
        exists (string_of_list_ascii (c :: token) :: words).
        split; [done | by apply prefix_cons].
Qed.
End ScanLoop.

(** *** Tokens and maximal runs *)

Lemma fields_nonempty content : fields content ≠ [].
Proof. destruct content as [|ch rest]; simpl; [done|]. by repeat case_match. Qed.

(** The peak stays within [b] exactly when every field does, the first one
    counted with the token it continues. *)
Lemma peak_bound n content b :
  (peak n content ≤ b)%nat ↔
  match fields content with
  | f :: fs => (n + length f ≤ b)%nat ∧ Forall (λ f, (length f ≤ b)%nat) fs
  | [] => (n ≤ b)%nat
  end.
Proof.
  revert n. induction content as [|ch rest IH]; intros n; simpl.
  - rewrite Forall_nil. lia.
  - destruct (alphanumeric ch).
    + rewrite IH. destruct (fields rest) as [|f fs]; simpl.
      * rewrite Forall_nil. lia.
      * apply and_iff_compat_r. lia.
    + rewrite Nat.max_lub_iff, IH. simpl.
      pose proof (fields_nonempty rest).
      destruct (fields rest) as [|f fs]; [done|].
      rewrite Forall_cons, Nat.add_0_r. simpl. tauto.
Qed.

Lemma peak_fields content b :
  (peak 0 content ≤ b)%nat ↔ Forall (λ f, (length f ≤ b)%nat) (fields content).
Proof.
  rewrite peak_bound. pose proof (fields_nonempty content).
  destruct (fields content) as [|f fs]; [done|]. by rewrite Forall_cons.
Qed.

(** No maximal run is longer than [b]. *)
Lemma peak_maximal_runs content b :
  (peak 0 content ≤ b)%nat ↔ ∀ run, run ∈ maximal_runs content → (length run ≤ b)%nat.
Proof.
  rewrite peak_fields, Forall_forall. unfold maximal_runs. split.
  - intros Hall run [_ Hrun]%list_elem_of_filter. auto.
  - intros Hruns f Hf. destruct f as [|ch f]; [simpl; lia|].
    apply Hruns, list_elem_of_filter. done.
Qed.


Lemma removelast_cons {A} (x : A) l : l ≠ [] → removelast (x :: l) = x :: removelast l.
Proof. by destruct l. Qed.



Lemma valid_word_token token :
  token ≠ [] → Forall (λ ch, is_digit ch || is_lower ch = true) token →
  valid_word (string_of_list_ascii token).
Proof.
  intros Hne Htoken. split.
  - destruct token; [done | discriminate].
  - by rewrite list_ascii_of_string_of_list_ascii.
Qed.

(** Every word the rule emits is a word of the data model. *)
Lemma tokenize_valid token content :
  Forall (λ ch, is_digit ch || is_lower ch = true) token →
  Forall valid_word (tokenize token content).
Proof.
  revert token. induction content as [|ch rest IH]; intros token Htoken; simpl.
  { constructor. }
  destruct (is_digit ch || is_lower ch) eqn:Hlow.
  - apply IH, Forall_app. split; [done | by repeat constructor].
  - destruct (is_upper ch) eqn:Hup.
    + apply IH, Forall_app. split; [done|]. repeat constructor.
      apply lowercase_class. by rewrite alphanumeric_cases, Hlow, Hup.
    + destruct token as [|c token]; [by apply IH|].
      constructor; [by apply valid_word_token | by apply IH].
Qed.

(** *** ProcessFile *)

Section ProcessFileFacts.
Context `{StdHash}.

Lemma report_calls filename stop idx : calls (report filename stop idx) = calls idx.
Proof. by destruct stop. Qed.

Lemma report_mWordsFound filename stop idx :
  mWordsFound (report filename stop idx) = mWordsFound idx.
Proof. by destruct stop. Qed.

Lemma ProcessFile_returns filename content stop idx :
  (peak 0 content < buffSize)%nat →
  ProcessFile filename (Opened content stop) idx
  = (Returns (), report filename stop (add_words (tokenize [] content) idx)).
Proof.
  intros Hpeak. unfold ProcessFile.
  destruct (scan_loop_returns content {| wordBuffer := new_wordBuffer; bufIndex := 0 |}
              [] idx (scanning_start _ new_wordBuffer_size) Hpeak)
    as (loc' & token' & -> & _).
  by destruct stop.
Qed.

Lemma ProcessFile_aborts filename content stop idx :
  (buffSize ≤ peak 0 content)%nat →
  ∃ words,
    ProcessFile filename (Opened content stop) idx = (AssertionFailed, add_words words idx)
    ∧ words `prefix_of` tokenize [] content.
Proof.
  intros Hpeak. unfold ProcessFile.
  destruct (scan_loop_aborts content {| wordBuffer := new_wordBuffer; bufIndex := 0 |}
              [] idx (scanning_start _ new_wordBuffer_size) Hpeak)
    as (words & -> & Hprefix).
  by exists words.
Qed.

(** The contents that fit: no maximal run is longer than 2047. *)
Lemma fits_peak content :
  (∀ run, run ∈ maximal_runs content → (length run ≤ 2047)%nat) ↔
  (peak 0 content < buffSize)%nat.
Proof. rewrite <- peak_maximal_runs, buffSize_value. lia. Qed.

Lemma overflows_peak content :
  (∃ run, run ∈ maximal_runs content ∧ (2047 < length run)%nat) ↔
  (buffSize ≤ peak 0 content)%nat.
Proof.
  rewrite buffSize_value. split.
  - intros (run & Hrun & Hlen).
    destruct (decide (peak 0 content ≤ 2047)%nat) as [Hfit|]; [|lia].
    rewrite peak_maximal_runs in Hfit. specialize (Hfit run Hrun). lia.
  - intros Hpeak.
    assert (¬ Forall (λ f, (length f ≤ 2047)%nat) (fields content)) as Hnot
      by (rewrite <- peak_fields; lia).
    apply not_Forall_Exists in Hnot; [|apply _].
    apply Exists_exists in Hnot as (run & Hrun & Hlen). exists run. split; [|simpl in *; lia].
    apply list_elem_of_filter. split; [|done]. intros ->. simpl in Hlen. lia.
Qed.

Lemma run_tasks_cons filename textFile rest idx :
  run_tasks ((filename, textFile) :: rest) idx
  = match ProcessFile filename textFile idx with
    | (Returns _, idx') => run_tasks rest idx'
    | failed => failed
    end.
Proof. done. Qed.

(** Alphanumeric characters alone cause no [AddWord] call and no output,
    whatever the state of the loop. *)
Lemma scan_loop_run_silent run loc idx :
  Forall (λ ch, alphanumeric ch = true) run → snd (scan_loop run loc idx) = idx.
Proof.
  intros Hrun. revert loc.
  induction Hrun as [|ch run Hch Hrun IH]; intros loc; simpl; [done|].
  unfold scan_char. rewrite classify_spec, Hch.
  destruct (store (bufIndex loc) (lowercase ch) (wordBuffer loc)); [|done..].
  case_decide; [apply IH | done].
Qed.
End ProcessFileFacts.

(** C3. When the content of a file ends in alphanumeric characters, that is,
    the file ends while a token is in progress, [ProcessFile] makes no
    [AddWord] call for them: the calls made, and the accumulator, are those
    of the content without its trailing token. *)
Theorem trailing_token_not_emitted `{StdHash} filename content trailing idx :
  Forall (λ ch, alphanumeric ch = true) trailing →
  calls (snd (ProcessFile filename (Opened (content ++ trailing) EndOfFile) idx))
  = calls (snd (ProcessFile filename (Opened content EndOfFile) idx))
  ∧ mWordsFound (snd (ProcessFile filename (Opened (content ++ trailing) EndOfFile) idx))
    = mWordsFound (snd (ProcessFile filename (Opened content EndOfFile) idx)).
Proof.
  intros Htrailing. unfold ProcessFile. rewrite scan_loop_app.
  destruct (scan_loop content _ idx) as [[loc'| |] idx']; simpl; try done.
  pose proof (scan_loop_run_silent trailing loc' idx' Htrailing) as Hsilent.
  destruct (scan_loop trailing loc' idx') as [[loc''| |] idx'']; simpl in *; by subst.
Qed.

Lemma trailing_token_not_emitted_witness :
  let H := length_StdHash in
  calls (snd (ProcessFile "a.txt"
                (Opened (list_ascii_of_string "hello " ++ list_ascii_of_string "world")
                        EndOfFile) fresh_indexer))
  = calls (snd (ProcessFile "a.txt" (Opened (list_ascii_of_string "hello ") EndOfFile)
                  fresh_indexer))
  ∧ mWordsFound (snd (ProcessFile "a.txt"
                (Opened (list_ascii_of_string "hello " ++ list_ascii_of_string "world")
                        EndOfFile) fresh_indexer))
    = mWordsFound (snd (ProcessFile "a.txt" (Opened (list_ascii_of_string "hello ") EndOfFile)
                  fresh_indexer)).
Proof.
  intros H. apply (trailing_token_not_emitted "a.txt"). repeat constructor.
Defined.



(** C5. The longest token [ProcessFile] can hold is 2047 characters: the
    word buffer is never written outside its bounds; the scan returns
    exactly when no maximal run of the content is longer than 2047; a longer
    run makes the assertion fail, which ends the whole run, the files after
    it included. *)
Theorem token_length_limit `{StdHash} filename content stop idx :
  let outcome := fst (ProcessFile filename (Opened content stop) idx) in
  outcome ≠ OutOfRange
  ∧ (outcome = Returns () ↔
     ∀ run, run ∈ maximal_runs content → (length run ≤ 2047)%nat)
  ∧ (outcome = AssertionFailed ↔
     ∃ run, run ∈ maximal_runs content ∧ (2047 < length run)%nat)
  ∧ (outcome = AssertionFailed →
     ∀ rest, fst (run_tasks ((filename, Opened content stop) :: rest) idx)
             = AssertionFailed).
Proof.
  intros outcome. subst outcome. rewrite fits_peak, overflows_peak.
  destruct (decide (peak 0 content < buffSize)%nat) as [Hfit|Hover].
  - rewrite ProcessFile_returns by done. simpl. split_and!.
    + done.
    + done.
    + split; [done | lia].
    + done.
  - destruct (ProcessFile_aborts filename content stop idx) as (words & Hrun & _); [lia|].
    rewrite Hrun. cbn [fst]. split_and!.
    + done.
    + done.
    + split; [lia | done].
    + intros _ rest. by rewrite run_tasks_cons, Hrun.
Qed.

(** C10. Every word [ProcessFile] passes to [AddWord] is not empty and is
    made of characters of [0-9a-z] only, for every file and however the
    scan ends. *)
Theorem ProcessFile_adds_valid_words `{StdHash} filename textFile idx :
  ∃ words,
    calls (snd (ProcessFile filename textFile idx)) = calls idx ++ words
    ∧ mWordsFound (snd (ProcessFile filename textFile idx))
      = foldl (λ acc word, AddWord word acc) (mWordsFound idx) words
    ∧ Forall valid_word words.
Proof.
  destruct textFile as [err|content stop].
  { exists []. simpl. by rewrite app_nil_r. }
  destruct (decide (peak 0 content < buffSize)%nat) as [Hfit|Hover].
  - exists (tokenize [] content). rewrite ProcessFile_returns by done. simpl.
    rewrite report_calls, report_mWordsFound, add_words_calls, add_words_mWordsFound.
    split_and!; try done. by apply tokenize_valid.
  - destruct (ProcessFile_aborts filename content stop idx)
      as (words & Hrun & [later Hlater]); [lia|].
    exists words. rewrite Hrun. simpl.
    rewrite add_words_calls, add_words_mWordsFound. split_and!; try done.
    pose proof (tokenize_valid [] content (Forall_nil_2 _)) as Hvalid.
    rewrite Hlater in Hvalid. by apply Forall_app in Hvalid as [? _].
Qed.

(** ** Top words, shards and case *)

(** C1 (the code does not do this). [ListTopWords(count)] with [count] above
    the number of recorded words: on the empty accumulator the result is the
    empty sequence, but with one word recorded and [count = 10], the call
    [main] makes, the range handed to the vector constructor ends past the
    end of [allWords]; asking for exactly as many words as are recorded
    returns them. *)
Theorem ListTopWords_beyond_the_words `{StdHash} `{StdSort} :
  ListTopWords 10 WordAccumulator_new = Returns []
  ∧ ListTopWords 1 (AddWord "hello" WordAccumulator_new) = Returns [("hello", 1)]
  ∧ ListTopWords 10 (AddWord "hello" WordAccumulator_new) = OutOfRange.
Proof.
  split_and!.
  - apply ListTopWords_empty. rewrite allWords_concat. simpl. apply concat_replicate_nil.
  - rewrite ListTopWords_in_range by (rewrite allWords_first_word; simpl; lia).
    rewrite allWords_first_word.
    pose proof (std_sort_perm _ by_occurrence [("hello", 1)]) as Hperm.
    apply Permutation_singleton_r in Hperm. by rewrite Hperm.
  - apply ListTopWords_out_of_range; rewrite allWords_first_word; [done | simpl; lia].
Qed.

(** C9. Whatever the state and the requested count, the sequence
    [ListTopWords] returns has non-increasing counts: every entry has a
    count at least that of every entry after it.  A sequence is returned,
    of [count] recorded entries, for every count from 0 to the number of
    recorded words. *)
Theorem ListTopWords_non_increasing `{StdSort} count acc :
  (∀ top, ListTopWords count acc = Returns top →
          StronglySorted (λ a b : WordCountType, snd b ≤ snd a) top)
  ∧ (0 ≤ count ≤ Z.of_nat (GetUniqueWordCount acc) →
     ∃ top, ListTopWords count acc = Returns top
            ∧ length top = Z.to_nat count
            ∧ top ⊆ allWords acc).
Proof.
  split.
  - intros top. unfold ListTopWords.
    destruct (length (allWords acc) <=? 0)%nat eqn:Hempty.
    + intros [= <-]. apply Nat.leb_le in Hempty.
      destruct (allWords acc); [constructor | simpl in Hempty; lia].
    + case_match; [|done]. intros [= <-].
      apply StronglySorted_take, std_sort_by_occurrence.
  - rewrite GetUniqueWordCount_allWords. intros Hcount.
    rewrite ListTopWords_in_range by done. eexists. split; [done|].
    pose proof (std_sort_perm _ by_occurrence (allWords acc)) as Hperm.
    split.
    + rewrite length_take, (Permutation_length Hperm). lia.
    + intros p Hp. apply (subseteq_take (Z.to_nat count)) in Hp. by rewrite <- Hperm.
Qed.

Lemma ListTopWords_non_increasing_witness :
  StronglySorted (λ a b : WordCountType, snd b ≤ snd a) [("a", 3); ("b", 2)].
Proof.
  apply (proj1 (ListTopWords_non_increasing (H := merge_StdSort) 2 sample_accumulator)).
  vm_compute. reflexivity.
Defined.

(** C8. A word has one shard, [hash(word) mod 32767]; in every state reached
    by [AddWord] and [ClearResults] calls the entry of a word is in that
    shard and in no other; [AddWord] changes that shard and leaves every
    other shard as it was. *)
Theorem word_in_its_shard `{StdHash} (ops : list Operation) (word : string) :
  let acc := after_operations ops in
  binIndex word acc = N.to_nat (std_hash word mod 32767)
  ∧ (∀ i bin count, mBins acc !! i = Some bin → (word, count) ∈ bin →
     i = binIndex word acc)
  ∧ entry_of word acc = bin_entry word (default [] (mBins acc !! binIndex word acc))
  ∧ (∀ i, i ≠ binIndex word acc → mBins (AddWord word acc) !! i = mBins acc !! i)
  ∧ mBins (AddWord word acc) !! binIndex word acc ≠ mBins acc !! binIndex word acc.
Proof.
  intros acc. pose proof (well_formed_after ops) as Hwf. fold acc in Hwf.
  split_and!.
  - unfold binIndex. by rewrite (wf_size _ Hwf), BIN_COUNT_value.
  - intros i bin count Hbin Hin. symmetry. apply (wf_placed _ Hwf _ _ _ Hbin Hin).
  - by apply entry_of_bin.
  - intros i Hi. simpl. by rewrite list_lookup_alter_ne.
  - simpl. rewrite list_lookup_alter_eq.
    pose proof (binIndex_lt word acc (wf_size _ Hwf)) as Hlt.
    destruct (lookup_lt_is_Some_2 _ _ Hlt) as [bin ->]. simpl.
    intros [= Hbin]. by apply AddWord_bin_changes in Hbin.
Qed.

(** [AddWord] compares words as they are. *)
Lemma AddWord_case_sensitive `{StdHash} :
  count_of "hello" (AddWord "hello" (AddWord "Hello" WordAccumulator_new)) = 1
  ∧ count_of "Hello" (AddWord "hello" (AddWord "Hello" WordAccumulator_new)) = 1.
Proof.
  pose proof well_formed_new as Hnew.
  rewrite !count_of_AddWord, !count_of_new by auto using well_formed_AddWord.
  repeat case_decide; done.
Qed.

(** C2, as stated, fails: whatever the hash, after [AddWord("Hello")] and
    [AddWord("hello")] on a fresh accumulator the count of "hello" is not 2. *)
Lemma AddWord_does_not_fold_case :
  ¬ ∃ H : StdHash,
      count_of "hello" (AddWord "hello" (AddWord "Hello" WordAccumulator_new)) = 2.
Proof.
  intros [H Hcount]. destruct (AddWord_case_sensitive (H := H)) as [Hone _].
  rewrite Hone in Hcount. discriminate.
Qed.

(** ** Case folding *)

Lemma lowercase_idempotent ch : lowercase (lowercase ch) = lowercase ch.
Proof. every_char ch. Qed.

Lemma alphanumeric_lowercase ch : alphanumeric (lowercase ch) = alphanumeric ch.
Proof. every_char ch. Qed.

(** Two characters that differ at most in case are classified alike. *)
Lemma classify_case ch1 ch2 : lowercase ch1 = lowercase ch2 → classify ch1 = classify ch2.
Proof.
  intros Hfold. rewrite !classify_spec.
  by rewrite <- (alphanumeric_lowercase ch1), <- (alphanumeric_lowercase ch2), Hfold.
Qed.

Lemma scan_loop_case `{StdHash} content1 content2 loc idx :
  map lowercase content1 = map lowercase content2 →
  scan_loop content1 loc idx = scan_loop content2 loc idx.
Proof.
  revert content2 loc idx.
  induction content1 as [|ch1 rest1 IH]; intros [|ch2 rest2] loc idx; simpl; try done.
  intros [= Hch Hrest]. unfold scan_char. rewrite (classify_case ch1 ch2 Hch).
  fold (scan_char ch2 loc idx).
  destruct (scan_char ch2 loc idx) as [[loc'| |] idx']; auto.
Qed.

Lemma count_of_add_words `{StdHash} word words acc :
  well_formed acc →
  well_formed (foldl (λ acc word, AddWord word acc) acc words)
  ∧ count_of word (foldl (λ acc word, AddWord word acc) acc words)
    = int_wrap (count_of word acc + occurrences word words).
Proof.
  revert acc. induction words as [|w words IH]; intros acc Hwf; simpl.
  - split; [done|]. unfold occurrences. simpl.
    rewrite Z.add_0_r. symmetry. by apply int_wrap_small, count_of_int.
  - destruct (IH (AddWord w acc) (well_formed_AddWord w acc Hwf)) as [Hwf' ->].
    split; [done|]. rewrite count_of_AddWord by done.
    unfold occurrences. rewrite filter_cons.
    destruct (decide (w = word)) as [->|Hne].
    + rewrite decide_True by done. rewrite int_wrap_add_l. f_equal. simpl length. lia.
    + by rewrite decide_False by congruence.
Qed.

(** Without overflow the count is the sum. *)
Lemma int_wrap_count `{StdHash} word words acc :
  well_formed acc →
  count_of word acc + occurrences word words ≤ INT_MAX →
  int_wrap (count_of word acc + occurrences word words)
  = count_of word acc + occurrences word words.
Proof.
  intros Hwf Hmax. apply int_wrap_small. pose proof (count_of_int word acc Hwf).
  unfold occurrences, INT_MIN, INT_MAX in *. lia.
Qed.

(** C2, amended. Case is folded by the scanner, before [AddWord]: two
    contents that differ only in the case of letters make [ProcessFile] do
    the same, and scanning "Hello hello " with a fresh accumulator leaves
    the count 2 for "hello"; [AddWord] itself compares words as they are, so
    that [AddWord("Hello")] then [AddWord("hello")] leave the count 1 for
    each of the two. *)
Theorem case_is_folded_by_the_scanner `{StdHash} filename content1 content2 stop idx :
  map lowercase content1 = map lowercase content2 →
  ProcessFile filename (Opened content1 stop) idx
  = ProcessFile filename (Opened content2 stop) idx
  ∧ count_of "hello"
      (mWordsFound (snd (ProcessFile filename
                           (Opened (list_ascii_of_string "Hello hello ") stop)
                           fresh_indexer))) = 2
  ∧ count_of "hello" (AddWord "hello" (AddWord "Hello" WordAccumulator_new)) = 1
  ∧ count_of "Hello" (AddWord "hello" (AddWord "Hello" WordAccumulator_new)) = 1.
Proof.
  intros Hcase. split_and!.
  - unfold ProcessFile. by rewrite (scan_loop_case content1 content2).
  - rewrite ProcessFile_returns by (rewrite buffSize_value; vm_compute; lia).
    cbn [snd]. rewrite report_mWordsFound, add_words_mWordsFound.
    change (tokenize [] (list_ascii_of_string "Hello hello ")) with ["hello"; "hello"].
    change (mWordsFound fresh_indexer) with WordAccumulator_new.
    destruct (count_of_add_words "hello" ["hello"; "hello"] WordAccumulator_new
                well_formed_new) as [_ ->].
    rewrite count_of_new. done.
  - apply AddWord_case_sensitive.
  - apply AddWord_case_sensitive.
Qed.

Lemma case_is_folded_by_the_scanner_witness :
  let H := length_StdHash in
  ProcessFile "a.txt" (Opened (list_ascii_of_string "Hello WORLD ") EndOfFile) fresh_indexer
  = ProcessFile "a.txt" (Opened (list_ascii_of_string "hello world ") EndOfFile) fresh_indexer
  ∧ count_of "hello"
      (mWordsFound (snd (ProcessFile "a.txt"
                           (Opened (list_ascii_of_string "Hello hello ") EndOfFile)
                           fresh_indexer))) = 2
  ∧ count_of "hello" (AddWord "hello" (AddWord "Hello" WordAccumulator_new)) = 1
  ∧ count_of "Hello" (AddWord "hello" (AddWord "Hello" WordAccumulator_new)) = 1.
Proof.
  intros H. apply (case_is_folded_by_the_scanner "a.txt"). reflexivity.
Defined.

(** ** A run over several files *)

Lemma fits_by_peak textFile : (peak 0 (delivered textFile) ≤ 2047)%nat → fits textFile.
Proof. intros Hpeak. unfold fits. by apply peak_maximal_runs. Qed.

Lemma occurrences_app word words1 words2 :
  occurrences word (words1 ++ words2) = occurrences word words1 + occurrences word words2.
Proof. unfold occurrences. rewrite filter_app, length_app. lia. Qed.

Section RunFacts.
Context `{StdHash}.

(** A file that fits is scanned to its end, or to the failure. *)
Lemma ProcessFile_fits filename textFile idx :
  fits textFile →
  ∃ idx', ProcessFile filename textFile idx = (Returns (), idx')
          ∧ calls idx' = calls idx ++ words_read textFile
          ∧ mWordsFound idx'
            = foldl (λ acc word, AddWord word acc) (mWordsFound idx) (words_read textFile)
          ∧ cout idx' = cout idx ++ diagnostics filename textFile.
Proof.
  intros Hfits. destruct textFile as [err|content stop].
  - eexists. split; [done|]. simpl. by rewrite app_nil_r.
  - apply fits_peak in Hfits. simpl in Hfits.
    rewrite ProcessFile_returns by done. eexists. split; [done|].
    rewrite report_calls, report_mWordsFound, add_words_calls, add_words_mWordsFound.
    split_and!; try done.
    destruct stop; simpl; rewrite add_words_cout; [by rewrite app_nil_r | done].
Qed.

Lemma run_tasks_fits tasks idx :
  Forall (λ task, fits (snd task)) tasks →
  ∃ idx', run_tasks tasks idx = (Returns (), idx')
          ∧ calls idx' = calls idx ++ words_of_tasks tasks
          ∧ mWordsFound idx'
            = foldl (λ acc word, AddWord word acc) (mWordsFound idx) (words_of_tasks tasks)
          ∧ cout idx'
            = cout idx ++ concat (map (λ task, diagnostics (fst task) (snd task)) tasks).
Proof.
  intros Htasks. revert idx.
  induction Htasks as [|[filename textFile] tasks Hfits Htasks IH]; intros idx.
  - exists idx. simpl. by rewrite !app_nil_r.
  - rewrite run_tasks_cons.
    destruct (ProcessFile_fits filename textFile idx Hfits)
      as (idx1 & -> & Hcalls1 & Hwords1 & Hcout1).
    destruct (IH idx1) as (idx' & -> & Hcalls & Hwords & Hcout).
    exists idx'. split; [done|]. unfold words_of_tasks in *. simpl.
    rewrite Hcalls, Hwords, Hcout, Hcalls1, Hwords1, Hcout1, foldl_app, <- !app_assoc.
    done.
Qed.

Lemma words_of_tasks_app tasks1 tasks2 :
  words_of_tasks (tasks1 ++ tasks2) = words_of_tasks tasks1 ++ words_of_tasks tasks2.
Proof. unfold words_of_tasks. by rewrite map_app, concat_app. Qed.
End RunFacts.

(** C6. A file that cannot be opened, or whose read fails before the end of
    the file, makes [ProcessFile] write one diagnostic that names the file
    and the system error, with no [AddWord] call beyond the words read
    before the failure (none at all when the file cannot be opened), and
    return normally; the run goes on with the files after it, and the final
    count of every word is its count before plus the number of its
    occurrences in what the files delivered (the [int] that holds it wraps
    around above [INT_MAX]). *)
Theorem file_failure_is_contained `{StdHash} filename textFile line before after idx :
  file_fails filename textFile line →
  fits textFile →
  Forall (λ task, fits (snd task)) before →
  Forall (λ task, fits (snd task)) after →
  well_formed (mWordsFound idx) →
  (∀ idx0, ∃ idx', ProcessFile filename textFile idx0 = (Returns (), idx')
                   ∧ cout idx' = cout idx0 ++ [line]
                   ∧ calls idx' = calls idx0 ++ words_read textFile)
  ∧ (∀ err, textFile = CannotOpen err → words_read textFile = [])
  ∧ ∃ final,
      run_tasks (before ++ (filename, textFile) :: after) idx = (Returns (), final)
      ∧ line ∈ cout final
      ∧ calls final
        = calls idx ++ words_of_tasks before ++ words_read textFile ++ words_of_tasks after
      ∧ ∀ word,
          let total := count_of word (mWordsFound idx)
                       + occurrences word (words_of_tasks before)
                       + occurrences word (words_read textFile)
                       + occurrences word (words_of_tasks after) in
          count_of word (mWordsFound final) = int_wrap total
          ∧ (total ≤ INT_MAX → count_of word (mWordsFound final) = total).
Proof.
  intros Hfails Hfits Hbefore Hafter Hwf. split_and!.
  - intros idx0.
    destruct (ProcessFile_fits filename textFile idx0 Hfits)
      as (idx' & Hrun & Hcalls & _ & Hcout).
    exists idx'. split_and!; try done. rewrite Hcout. by destruct Hfails.
  - by intros err ->.
  - assert (Forall (λ task : Task, fits (snd task))
                   (before ++ (filename, textFile) :: after)) as Hall.
    { apply Forall_app. split; [done|]. by constructor. }
    destruct (run_tasks_fits _ idx Hall) as (final & Hrun & Hcalls & Hwords & Hcout).
    assert (words_of_tasks (before ++ (filename, textFile) :: after)
            = words_of_tasks before ++ words_read textFile ++ words_of_tasks after)
      as Hsplit by by rewrite words_of_tasks_app.
    exists final. split_and!; try done.
    + rewrite Hcout, map_app, concat_app. simpl.
      apply elem_of_app. right. apply elem_of_app. right.
      apply elem_of_app. left. destruct Hfails; simpl; left.
    + by rewrite Hcalls, Hsplit.
    + intros word total. rewrite Hwords, Hsplit.
      destruct (count_of_add_words word
                  (words_of_tasks before ++ words_read textFile ++ words_of_tasks after)
                  (mWordsFound idx) Hwf) as [_ ->].
      assert (count_of word (mWordsFound idx)
              + occurrences word
                  (words_of_tasks before ++ words_read textFile ++ words_of_tasks after)
              = total) as Htotal by (unfold total; rewrite !occurrences_app; lia).
      split; [by rewrite Htotal|]. intros Hmax. rewrite <- Htotal.
      apply int_wrap_count; [done | by rewrite Htotal].
Qed.

Lemma file_failure_is_contained_witness :
  let H := length_StdHash in
  ∃ final,
    run_tasks [("a.txt", Opened (list_ascii_of_string "x y ") EndOfFile);
               ("gone.txt", CannotOpen 2);
               ("b.txt", Opened (list_ascii_of_string "y ") EndOfFile)] fresh_indexer
    = (Returns (), final)
    ∧ FailedToOpen "gone.txt" 2 ∈ cout final
    ∧ count_of "y" (mWordsFound final) = 2.
Proof.
  intros H.
  destruct (file_failure_is_contained "gone.txt" (CannotOpen 2) (FailedToOpen "gone.txt" 2)
              [("a.txt", Opened (list_ascii_of_string "x y ") EndOfFile)]
              [("b.txt", Opened (list_ascii_of_string "y ") EndOfFile)]
              fresh_indexer)
    as (_ & _ & final & Hrun & Hline & _ & Hcount).
  - constructor.
  - apply fits_by_peak. vm_compute. lia.
  - constructor; [apply fits_by_peak; vm_compute; lia | constructor].
  - constructor; [apply fits_by_peak; vm_compute; lia | constructor].
  - apply well_formed_new.
  - exists final. split_and!; [exact Hrun | exact Hline |].
    pose proof (Hcount "y") as Hy. cbv zeta in Hy. destruct Hy as [Hy _].
    rewrite Hy. change (mWordsFound fresh_indexer) with WordAccumulator_new.
    rewrite count_of_new. reflexivity.
Defined.

(** ** The walk *)

(** Induction over the paths below a path. *)
Fixpoint Path_below_ind (P : Path → Prop)
    (Hfail : ∀ st err data, P (PathInfo st (inl err) data))
    (Hdir : ∀ st entries data,
        Forall (λ entry, P (snd entry)) entries → P (PathInfo st (inr entries) data))
    (p : Path) {struct p} : P p :=
  match p with
  | PathInfo st (inl err) data => Hfail st err data
  | PathInfo st (inr entries) data =>
      Hdir st entries data
        ((fix below (entries : list (string * Path))
            : Forall (λ entry, P (snd entry)) entries :=
            match entries with
            | [] => @List.Forall_nil _ _
            | (d_name, e) :: rest =>
                @List.Forall_cons _ _ (d_name, e) rest
                  (Path_below_ind P Hfail Hdir e) (below rest)
            end) entries)
  end.

(** [SearchForFiles] visits the entries of the directory in turn. *)
Lemma SearchForFiles_entries basePath dir idx :
  SearchForFiles basePath dir idx
  = match opendir dir with
    | inl err => print (Strerror err) idx
    | inr entries =>
        foldl (λ idx entry, visit_entry SearchForFiles basePath entry idx) idx entries
    end.
Proof.
  destruct dir as [st [err|entries] data]; simpl; [done|].
  revert idx. induction entries as [|entry rest IH]; intros idx; simpl; [done|].
  apply IH.
Qed.

Lemma string_length_app (s1 s2 : string) :
  String.length (s1 +:+ s2) = (String.length s1 + String.length s2)%nat.
Proof. induction s1 as [|c s1 IH]; simpl; [done | by rewrite IH]. Qed.

Lemma substring_whole (s : string) : substring 0 (String.length s) s = s.
Proof. induction s as [|c s IH]; simpl; [done | by rewrite IH]. Qed.

(** The test of [SearchForFiles] on the name holds exactly for the names
    that end in ".txt", in this case. *)
Lemma ends_in_txt_spec d_name :
  ends_in_txt d_name = true ↔ ∃ stem, d_name = stem +:+ ".txt".
Proof.
  unfold ends_in_txt. rewrite andb_true_iff, Nat.leb_le, String.eqb_eq. split.
  - intros [Hlen Hsuffix].
    assert (∃ n, String.length d_name = (n + 4)%nat) as [n Hn]
        by (exists (String.length d_name - 4)%nat; lia).
    rewrite Hn, Nat.add_sub in Hsuffix. clear Hlen.
    revert d_name Hn Hsuffix. induction n as [|n IH]; intros d_name Hn Hsuffix.
    + exists "". simpl in *. rewrite <- Hn, substring_whole in Hsuffix. by subst.
    + destruct d_name as [|c d_name]; [done|]. simpl in Hn, Hsuffix.
      destruct (IH d_name) as [stem ->]; [lia | done |].
      by exists (String c stem).
  - intros [stem ->]. rewrite string_length_app. simpl. split; [lia|].
    rewrite Nat.add_sub. induction stem as [|c stem IH]; simpl; [done | apply IH].
Qed.

(** A regular file is no symbolic link and no directory. *)
Lemma S_ISREG_only st_mode :
  S_ISREG st_mode = true → S_ISLNK st_mode = false ∧ S_ISDIR st_mode = false.
Proof.
  unfold S_ISREG, S_ISLNK, S_ISDIR. intros ->%Z.eqb_eq. done.
Qed.

Lemma posted_since_refl idx : posted_since idx idx = [].
Proof. unfold posted_since. by rewrite drop_all. Qed.

Lemma posted_since_post task idx : posted_since idx (post task idx) = [task].
Proof. unfold posted_since. simpl. by rewrite drop_app_length. Qed.

(** The walk only posts: each task it posts is for a path strictly below
    [basePath], and the accumulator is not touched. *)
Lemma SearchForFiles_posts dir : ∀ basePath idx,
  ∃ new,
    mIOService (SearchForFiles basePath dir idx) = mIOService idx ++ new
    ∧ Forall (λ task : Task, (String.length basePath < String.length (fst task))%nat) new
    ∧ mWordsFound (SearchForFiles basePath dir idx) = mWordsFound idx
    ∧ calls (SearchForFiles basePath dir idx) = calls idx.
Proof.
  induction dir as [st err data|st entries data IH] using Path_below_ind;
    intros basePath idx; rewrite SearchForFiles_entries; cbn [opendir].
  { exists []. simpl. by rewrite app_nil_r. }
  revert idx. induction IH as [|[d_name e] rest He _ IHrest]; intros idx; cbn [foldl].
  { exists []. by rewrite app_nil_r. }
  assert (∃ new1,
    mIOService (visit_entry SearchForFiles basePath (d_name, e) idx) = mIOService idx ++ new1
    ∧ Forall (λ task : Task, (String.length basePath < String.length (fst task))%nat) new1
    ∧ mWordsFound (visit_entry SearchForFiles basePath (d_name, e) idx) = mWordsFound idx
    ∧ calls (visit_entry SearchForFiles basePath (d_name, e) idx) = calls idx)
    as (new1 & Hq1 & Hlen1 & Hw1 & Hc1).
  { assert (∃ new1 : list Task, mIOService idx = mIOService idx ++ new1
            ∧ Forall (λ task : Task,
                        (String.length basePath < String.length (fst task))%nat) new1
            ∧ mWordsFound idx = mWordsFound idx ∧ calls idx = calls idx) as Hsame
        by (exists []; by rewrite app_nil_r).
    unfold visit_entry.
    destruct (String.eqb d_name "." || String.eqb d_name ".."); [done|].
    destruct (lstat e) as [st_mode|]; [|done].
    destruct (S_ISLNK st_mode); [done|].
    destruct (S_ISREG st_mode).
    - destruct (ends_in_txt d_name); [|done].
      eexists. split; [done|]. split; [|done]. repeat constructor. simpl.
      rewrite !string_length_app. simpl. lia.
    - destruct (S_ISDIR st_mode); [|done].
      destruct (He (basePath +:+ "/" +:+ d_name) idx) as (new1 & Hq & Hlen & Hw & Hc).
      exists new1. split_and!; try done.
      eapply Forall_impl; [exact Hlen|]. intros task. simpl.
      rewrite !string_length_app. simpl. lia. }
  destruct (IHrest (visit_entry SearchForFiles basePath (d_name, e) idx))
    as (new2 & Hq2 & Hlen2 & Hw2 & Hc2).
  exists (new1 ++ new2). rewrite Hq2, Hq1, Hw2, Hw1, Hc2, Hc1, <- app_assoc.
  split_and!; try done. by apply Forall_app.
Qed.

Lemma visit_entry_cases basePath d_name e idx :
  let entryPath := basePath +:+ "/" +:+ d_name in
  let idx' := visit_entry SearchForFiles basePath (d_name, e) idx in
  (regular_txt d_name e ∧ idx' = post (entryPath, ifstream e) idx)
  ∨ (directory d_name e ∧ idx' = SearchForFiles entryPath e idx)
  ∨ (skipped d_name e ∧ ¬ regular_txt d_name e ∧ ¬ directory d_name e ∧ idx' = idx).
Proof.
  intros entryPath idx'. subst entryPath idx'.
  unfold visit_entry, regular_txt, directory, skipped.
  destruct (String.eqb d_name ".") eqn:Hdot; simpl.
  { apply String.eqb_eq in Hdot. right. right. split_and!; [by left | tauto..| done]. }
  destruct (String.eqb d_name "..") eqn:Hdots; simpl.
  { apply String.eqb_eq in Hdots. right. right.
    split_and!; [right; by left | tauto..| done]. }
  apply String.eqb_neq in Hdot, Hdots.
  destruct (lstat e) as [st_mode|] eqn:Hstat.
  2:{ right. right. split_and!; [right; right; by left | | | done].
      - intros (_ & _ & (? & ? & _) & _). done.
      - intros (_ & _ & (? & ? & _)). done. }
  destruct (S_ISLNK st_mode) eqn:Hlnk.
  { right. right. split_and!; [do 3 right; exists st_mode; split; [done | by left] | | | done].
    - intros (_ & _ & (? & [= <-] & ? & _) & _). congruence.
    - intros (_ & _ & (? & [= <-] & ? & _)). congruence. }
  destruct (S_ISREG st_mode) eqn:Hreg.
  - destruct (ends_in_txt d_name) eqn:Htxt.
    + left. split; [|done]. split_and!; try done; [by exists st_mode|].
      by apply ends_in_txt_spec.
    + right. right.
      assert (¬ ∃ stem, d_name = stem +:+ ".txt") as Hno.
      { intros Hstem%ends_in_txt_spec. congruence. }
      split_and!; [do 3 right; exists st_mode; split; [done | right; right; done] | | | done].
      * intros (_ & _ & _ & ?). done.
      * intros (_ & _ & (? & [= <-] & _ & ? & _)). congruence.
  - destruct (S_ISDIR st_mode) eqn:Hdir.
    + right. left. split; [|done]. split_and!; try done. by exists st_mode.
    + right. right.
      split_and!; [do 3 right; exists st_mode; split; [done | right; left; done] | | | done].
      * intros (_ & _ & (? & [= <-] & _ & ?) & _). congruence.
      * intros (_ & _ & (? & [= <-] & _ & _ & ?)). congruence.
Qed.

(** C7. For an entry the walk reads in a directory: a task is posted for it
    exactly when it is a regular file, no symbolic link, whose name ends in
    ".txt" (case matters), and then that one task; "." and "..", entries
    whose [lstat] fails, symbolic links whatever they point to, and entries
    that are neither regular files nor directories are passed over; a
    directory is walked at once, inside the loop, and no task is posted for
    the directory itself.  The walk of a directory is the visit of its
    entries in turn. *)
Theorem entry_dispatch basePath d_name e idx :
  let entryPath := basePath +:+ "/" +:+ d_name in
  let idx' := visit_entry SearchForFiles basePath (d_name, e) idx in
  ((∃ data, (entryPath, data) ∈ posted_since idx idx') ↔ regular_txt d_name e)
  ∧ (regular_txt d_name e → idx' = post (entryPath, ifstream e) idx)
  ∧ (directory d_name e →
     idx' = SearchForFiles entryPath e idx ∧ mWordsFound idx' = mWordsFound idx)
  ∧ (¬ regular_txt d_name e → ¬ directory d_name e → idx' = idx)
  ∧ (d_name = "." ∨ d_name = ".." ∨ lstat e = None
     ∨ (∃ st_mode, lstat e = Some st_mode
                   ∧ (S_ISLNK st_mode = true
                      ∨ (S_ISREG st_mode = false ∧ S_ISDIR st_mode = false))) →
     idx' = idx)
  ∧ (∀ dir entries idx0, opendir dir = inr entries →
     SearchForFiles basePath dir idx0
     = foldl (λ idx entry, visit_entry SearchForFiles basePath entry idx) idx0 entries).
Proof.
  intros entryPath idx'.
  destruct (visit_entry_cases basePath d_name e idx)
    as [[Hreg Hidx]|[[Hdir Hidx]|(Hskip & Hnreg & Hndir & Hidx)]];
    fold entryPath idx' in Hidx.
  - assert (¬ directory d_name e) as Hndir.
    { destruct Hreg as (_ & _ & (m & Hm & _ & Hr) & _).
      intros (_ & _ & (m' & Hm' & _ & Hr' & _)). congruence. }
    split_and!; try done.
    + split; [done|]. intros _. exists (ifstream e).
      rewrite Hidx, posted_since_post. left.
    + intros Hcase. exfalso.
      destruct Hreg as (Hdot & Hdots & (m & Hm & Hl & Hr) & _).
      destruct Hcase as [?|[?|[?|(m' & Hm' & [?|[? _]])]]]; congruence.
    + intros dir entries idx0 Hopen. by rewrite SearchForFiles_entries, Hopen.
  - assert (¬ regular_txt d_name e) as Hnreg.
    { destruct Hdir as (_ & _ & (m & Hm & _ & Hr & _)).
      intros (_ & _ & (m' & Hm' & _ & Hr') & _). congruence. }
    destruct (SearchForFiles_posts e entryPath idx) as (new & Hq & Hlen & Hw & _).
    split_and!; try done.
    + split; [|done]. intros [data Hin]. exfalso.
      unfold posted_since in Hin. rewrite Hidx, Hq, drop_app_length in Hin.
      rewrite Forall_forall in Hlen. specialize (Hlen _ Hin). simpl in Hlen. lia.
    + intros _. by rewrite Hidx.
    + intros Hcase. exfalso.
      destruct Hdir as (Hdot & Hdots & (m & Hm & Hl & Hr & Hd)).
      destruct Hcase as [?|[?|[?|(m' & Hm' & [?|[? ?]])]]]; congruence.
    + intros dir entries idx0 Hopen. by rewrite SearchForFiles_entries, Hopen.
  - split_and!; try done.
    + split; [|done]. intros [data Hin]. exfalso.
      rewrite Hidx, posted_since_refl in Hin. by apply not_elem_of_nil in Hin.
    + intros dir entries idx0 Hopen. by rewrite SearchForFiles_entries, Hopen.
Qed.

(** ** The program on concrete inputs *)

(** A token of 2047 characters is added; one of 2048 ends the process. *)
Example longest_token :
  let H := length_StdHash in
  let fits := Opened (replicate 2047 "a"%char ++ [" "%char]) EndOfFile in
  let too_long := Opened (replicate 2048 "a"%char ++ [" "%char]) EndOfFile in
  fst (ProcessFile "f.txt" fits fresh_indexer) = Returns ()
  ∧ map String.length (calls (snd (ProcessFile "f.txt" fits fresh_indexer))) = [2047%nat]
  ∧ fst (ProcessFile "f.txt" too_long fresh_indexer) = AssertionFailed
  ∧ calls (snd (ProcessFile "f.txt" too_long fresh_indexer)) = [].
Proof. intros H fits too_long. split_and!; vm_compute; reflexivity. Qed.

Example Run_sample_tree :
  let H := length_StdHash in
  let result := Run "/data" sample_tree fresh_indexer in
  fst result = Returns ()
  ∧ calls (snd result) = ["hello"; "hello"; "world"; "world"]
  ∧ cout (snd result) = [WordsFound 2]
  ∧ ListTopWords (H := merge_StdSort) 2 (mWordsFound (snd result))
    = Returns [("hello", 2); ("world", 2)].
Proof. intros H result. vm_compute. done. Qed.

Example SearchForFiles_sample_tree :
  map fst (mIOService (SearchForFiles "/data" sample_tree fresh_indexer))
  = ["/data/a.txt"; "/data/b.txt"].
Proof. vm_compute. reflexivity. Qed.

(** * Further properties *)

#[local] Set Warnings "-clear-no-such-hyp".

(** ** Counts and unique words *)

Lemma occurrences_none word words : occurrences word words = 0 ↔ word ∉ words.
Proof.
  unfold occurrences. induction words as [|w words IH]; simpl.
  - split; [intros _; apply not_elem_of_nil | done].
  - rewrite filter_cons, not_elem_of_cons. destruct (decide (w = word)) as [->|Hne].
    + simpl. split; [lia | tauto].
    + rewrite IH. split; [intros ?; split; [congruence | done] | tauto].
Qed.

Lemma occurrences_Permutation word words1 words2 :
  words1 ≡ₚ words2 → occurrences word words1 = occurrences word words2.
Proof. unfold occurrences. by intros ->. Qed.

Lemma added_since_clear_snoc ops op :
  added_since_clear (ops ++ [op])
  = match op with Add word => added_since_clear ops ++ [word] | Clear => [] end.
Proof. unfold added_since_clear. by rewrite foldl_snoc. Qed.

Lemma after_operations_snoc `{StdHash} ops op :
  after_operations (ops ++ [op]) = apply_operation (after_operations ops) op.
Proof. unfold after_operations. by rewrite foldl_snoc. Qed.

(** A word is a key of the snapshot exactly when the snapshot has an entry
    for it. *)
Lemma key_in_snapshot word acc :
  word ∈ (allWords acc).*1 ↔ is_Some (entry_of word acc).
Proof.
  unfold entry_of. split.
  - intros ([w c] & -> & Hin)%list_elem_of_fmap. simpl.
    induction (allWords acc) as [|[w' c'] l IH]; [by apply not_elem_of_nil in Hin|].
    simpl. destruct (String.eqb w' w) eqn:Hw; [by eexists|].
    apply elem_of_cons in Hin as [[= -> ->]|Hin]; [|by apply IH].
    by rewrite String.eqb_refl in Hw.
  - intros [p Hp]. apply find_some_of in Hp as [Hin <-%String.eqb_eq].
    by apply list_elem_of_fmap_2.
Qed.

(** Bins that hold a word at most once each, and no word in two of them,
    hold a word at most once all together. *)
Lemma NoDup_concat_keys (bins : list (list (string * Z))) :
  (∀ i bin, bins !! i = Some bin → NoDup bin.*1) →
  (∀ i j bin1 bin2 p q, bins !! i = Some bin1 → bins !! j = Some bin2 →
                        p ∈ bin1 → q ∈ bin2 → fst p = fst q → i = j) →
  NoDup (concat bins).*1.
Proof.
  induction bins as [|bin bins IH]; intros Hbin Hapart; simpl; [constructor|].
  rewrite fmap_app. apply NoDup_app. split_and!.
  - by apply (Hbin 0%nat).
  - intros w (p & -> & Hp)%list_elem_of_fmap (q & Hq & Hin)%list_elem_of_fmap.
    apply list_elem_of_In, in_concat in Hin as (bin' & Hbin' & Hin).
    apply list_elem_of_In, list_elem_of_lookup in Hbin' as [j Hj].
    apply list_elem_of_In in Hin.
    by specialize (Hapart 0%nat (S j) bin bin' p q eq_refl Hj Hp Hin Hq).
  - apply IH.
    + intros i b Hb. by apply (Hbin (S i)).
    + intros i j b1 b2 p q Hb1 Hb2 Hp Hq Hpq.
      by specialize (Hapart (S i) (S j) b1 b2 p q Hb1 Hb2 Hp Hq Hpq) as [= ->].
Qed.

Section CountFacts.
Context `{StdHash}.

Lemma well_formed_distinct acc : well_formed acc → NoDup (allWords acc).*1.
Proof.
  intros Hwf. rewrite allWords_concat. apply NoDup_concat_keys.
  - apply (wf_unique _ Hwf).
  - intros i j bin1 bin2 p q Hb1 Hb2 Hp Hq Hpq.
    rewrite <- (wf_placed _ Hwf _ _ _ Hb1 Hp), <- (wf_placed _ Hwf _ _ _ Hb2 Hq).
    by rewrite Hpq.
Qed.

Lemma recorded_words_AddWord word acc :
  well_formed acc → recorded_words (AddWord word acc) = {[ word ]} ∪ recorded_words acc.
Proof.
  intros Hwf. apply set_eq. intros w. unfold recorded_words.
  rewrite elem_of_union, elem_of_singleton, !elem_of_list_to_set, !key_in_snapshot.
  destruct (decide (w = word)) as [->|Hne].
  - rewrite entry_of_AddWord by done. split; [by left | by eexists].
  - rewrite entry_of_AddWord_other by done. tauto.
Qed.

Lemma recorded_words_ClearResults acc : recorded_words (ClearResults acc) = ∅.
Proof.
  unfold recorded_words. rewrite allWords_concat. simpl.
  assert (concat (map (λ _ : list (string * Z), ([] : list (string * Z))) (mBins acc)) = [])
    as -> by (induction (mBins acc); simpl; auto).
  done.
Qed.

Lemma GetUniqueWordCount_recorded acc :
  well_formed acc → GetUniqueWordCount acc = size (recorded_words acc).
Proof.
  intros Hwf. rewrite GetUniqueWordCount_allWords. unfold recorded_words.
  rewrite size_list_to_set by by apply well_formed_distinct.
  by rewrite length_fmap.
Qed.

Lemma recorded_words_add_words words acc :
  well_formed acc →
  recorded_words (foldl (λ acc word, AddWord word acc) acc words)
  = list_to_set words ∪ recorded_words acc.
Proof.
  revert acc. induction words as [|w words IH]; intros acc Hwf; simpl.
  - set_solver.
  - rewrite IH by by apply well_formed_AddWord.
    rewrite recorded_words_AddWord by done. set_solver.
Qed.

Lemma recorded_words_after ops :
  recorded_words (after_operations ops) = list_to_set (added_since_clear ops).
Proof.
  induction ops as [|op ops IH] using rev_ind.
  - unfold after_operations, added_since_clear, recorded_words. simpl.
    rewrite allWords_concat. simpl. by rewrite concat_replicate_nil.
  - rewrite after_operations_snoc, added_since_clear_snoc.
    destruct op as [word|]; simpl.
    + rewrite recorded_words_AddWord by apply well_formed_after.
      rewrite IH, list_to_set_snoc_L. set_solver.
    + apply recorded_words_ClearResults.
Qed.

(** The count after the calls: their number, as an [int]. *)
Lemma count_of_after ops word :
  count_of word (after_operations ops)
  = int_wrap (occurrences word (added_since_clear ops)).
Proof.
  induction ops as [|op ops IH] using rev_ind.
  - unfold after_operations, added_since_clear. simpl. by rewrite count_of_new.
  - rewrite after_operations_snoc, added_since_clear_snoc.
    pose proof (well_formed_after ops) as Hwf. destruct op as [word'|]; simpl.
    + rewrite count_of_AddWord, occurrences_app, IH by done.
      assert (occurrences word [word'] = if decide (word = word') then 1 else 0) as ->.
      { unfold occurrences. rewrite filter_cons, filter_nil.
        destruct (decide (word = word')) as [->|Hne].
        - by rewrite decide_True.
        - by rewrite decide_False by congruence. }
      case_decide; [by rewrite int_wrap_add_l | by rewrite Z.add_0_r].
    + by rewrite count_of_ClearResults.
Qed.

Lemma occurrences_pos word words : word ∈ words → 0 < occurrences word words.
Proof.
  intros Hin. destruct (decide (occurrences word words = 0)) as [Hnone|Hsome].
  - by apply occurrences_none in Hnone.
  - unfold occurrences in *. lia.
Qed.
End CountFacts.

(** X1. In every state reached by [AddWord] and [ClearResults] calls, the
    count of a word is the number of [AddWord] calls made with it since the
    last [ClearResults], held in an [int]: it is that number as long as the
    number is at most [INT_MAX], and the call after that makes it
    [INT_MIN]. *)
Theorem AddWord_counts_the_calls `{StdHash} (ops : list Operation) (word : string) :
  let n := occurrences word (added_since_clear ops) in
  count_of word (after_operations ops) = int_wrap n
  ∧ (n ≤ INT_MAX → count_of word (after_operations ops) = n)
  ∧ (n = INT_MAX + 1 → count_of word (after_operations ops) = INT_MIN).
Proof.
  intros n. rewrite count_of_after. fold n. split_and!.
  - done.
  - intros Hmax. apply int_wrap_small. unfold n, occurrences, INT_MIN, INT_MAX in *. lia.
  - by intros ->.
Qed.

(** X2. [GetUniqueWordCount] returns the number of distinct words given to
    [AddWord] since the last [ClearResults]. *)
Theorem GetUniqueWordCount_counts_distinct_words `{StdHash} (ops : list Operation) :
  GetUniqueWordCount (after_operations ops)
  = size (list_to_set (added_since_clear ops) : gset string).
Proof.
  rewrite GetUniqueWordCount_recorded by apply well_formed_after. f_equal.
  induction ops as [|op ops IH] using rev_ind.
  - unfold after_operations, added_since_clear, recorded_words. simpl.
    rewrite allWords_concat. simpl. by rewrite concat_replicate_nil.
  - rewrite after_operations_snoc, added_since_clear_snoc.
    destruct op as [word|]; simpl.
    + rewrite recorded_words_AddWord by apply well_formed_after.
      rewrite IH, list_to_set_snoc_L. set_solver.
    + apply recorded_words_ClearResults.
Qed.

(** X3. [ClearResults] brings every reachable accumulator back to the state
    the constructor gives, and after it, on any accumulator, no word is
    counted and [ListTopWords] returns the empty sequence for every count,
    negative ones included. *)
Theorem ClearResults_restores_the_new_state `{StdHash} `{StdSort}
    (ops : list Operation) (acc : WordAccumulator) (count : Z) (word : string) :
  ClearResults (after_operations ops) = WordAccumulator_new
  ∧ GetUniqueWordCount (ClearResults acc) = 0%nat
  ∧ ListTopWords count (ClearResults acc) = Returns []
  ∧ count_of word (ClearResults acc) = 0.
Proof.
  assert (∀ bins : list (list (string * Z)),
            map (λ _, ([] : list (string * Z))) bins = replicate (length bins) [])
    as Hclear by (intros bins; induction bins; simpl; congruence).
  assert (allWords (ClearResults acc) = []) as Hnone.
  { rewrite allWords_concat. simpl. rewrite Hclear. apply concat_replicate_nil. }
  split_and!.
  - unfold ClearResults, WordAccumulator_new.
    by rewrite Hclear, (wf_size _ (well_formed_after ops)).
  - by rewrite GetUniqueWordCount_allWords, Hnone.
  - by apply ListTopWords_empty.
  - unfold count_of, entry_of. by rewrite Hnone.
Qed.

Lemma entry_of_member `{StdHash} acc word count :
  well_formed acc →
  (word, count) ∈ allWords acc ↔ entry_of word acc = Some (word, count).
Proof.
  intros Hwf. pose proof (well_formed_distinct acc Hwf) as Hnd. unfold entry_of.
  split.
  - induction (allWords acc) as [|[w c] l IH]; intros Hin;
      [by apply not_elem_of_nil in Hin|].
    change (((w, c) :: l).*1) with (w :: l.*1) in Hnd.
    apply NoDup_cons in Hnd as [Hw Hnd]. simpl.
    apply elem_of_cons in Hin as [[= -> ->]|Hin].
    + by rewrite String.eqb_refl.
    + destruct (String.eqb w word) eqn:Heq; [|by apply IH].
      apply String.eqb_eq in Heq as ->. exfalso. apply Hw.
      by apply (list_elem_of_fmap_2 fst l (word, count)).
  - by intros [Hin _]%find_some_of.
Qed.

(** The snapshot holds a pair exactly when the word is recorded with that
    count. *)
Lemma snapshot_member `{StdHash} acc word count :
  well_formed acc →
  (word, count) ∈ allWords acc ↔ word ∈ recorded_words acc ∧ count_of word acc = count.
Proof.
  intros Hwf. rewrite entry_of_member by done. unfold recorded_words, count_of.
  rewrite elem_of_list_to_set, key_in_snapshot. split.
  - intros ->. by split.
  - intros [[[w c] Hentry] Hcount]. rewrite Hentry in Hcount |- *. simpl in Hcount.
    apply find_some_of in Hentry as [_ Heq%String.eqb_eq]. simpl in Heq. by subst.
Qed.

(** X4. In every reachable state the snapshot [ListTopWords] and
    [GetUniqueWordCount] read holds each word at most once, and holds the
    pair of a word and a count exactly when the word was given to [AddWord]
    since the last [ClearResults] and the count is the number of those
    calls, held in an [int]; that count is positive as long as the number
    is at most [INT_MAX]. *)
Theorem snapshot_has_one_entry_per_word `{StdHash} (ops : list Operation) :
  let acc := after_operations ops in
  let words := added_since_clear ops in
  NoDup (allWords acc).*1
  ∧ (∀ word count,
       (word, count) ∈ allWords acc ↔
       word ∈ words ∧ count = int_wrap (occurrences word words))
  ∧ ∀ word count,
      (word, count) ∈ allWords acc → occurrences word words ≤ INT_MAX →
      count = occurrences word words ∧ 0 < count.
Proof.
  intros acc words. pose proof (well_formed_after ops) as Hwf. fold acc in Hwf.
  assert (∀ word count,
            (word, count) ∈ allWords acc ↔
            word ∈ words ∧ count = int_wrap (occurrences word words)) as Hmember.
  { intros word count. rewrite snapshot_member by done. unfold acc.
    rewrite recorded_words_after, count_of_after, elem_of_list_to_set.
    fold words. split; intros [? ?]; by split. }
  split_and!; [by apply well_formed_distinct | done |].
  intros word count [Hin ->]%Hmember Hmax.
  pose proof (occurrences_pos word words Hin) as Hpos.
  rewrite int_wrap_small; [done|]. unfold INT_MIN, INT_MAX in *. lia.
Qed.

(** What [ListTopWords] returns is a prefix of the sorted snapshot. *)
Lemma ListTopWords_sorted_prefix `{StdSort} count acc top :
  ListTopWords count acc = Returns top →
  ∃ rest, top ++ rest ≡ₚ allWords acc
          ∧ StronglySorted (λ a b : WordCountType, snd b ≤ snd a) (top ++ rest)
          ∧ (allWords acc = [] ∨ length top = Z.to_nat count).
Proof.
  unfold ListTopWords. destruct (length (allWords acc) <=? 0)%nat eqn:Hempty.
  - intros [= <-]. apply Nat.leb_le in Hempty. exists [].
    destruct (allWords acc); [|simpl in Hempty; lia].
    split_and!; [done | constructor | by left].
  - destruct ((0 <=? count) && _) eqn:Hrange; [|done]. intros [= <-].
    exists (drop (Z.to_nat count) (std_sort by_occurrence (allWords acc))).
    rewrite take_drop. split_and!; [apply std_sort_perm | apply std_sort_by_occurrence |].
    right. rewrite length_take. apply andb_prop in Hrange as [_ Hle%Z.leb_le]. lia.
Qed.

(** X5. What [ListTopWords] returns is the top of the snapshot: the entries
    returned and the entries left out are together the recorded entries,
    no entry left out has a count above that of an entry returned, and the
    entries returned are for different words, each a word given to
    [AddWord] since the last [ClearResults], with the number of those
    calls, held in an [int], as its count. *)
Theorem ListTopWords_returns_the_top `{StdHash} `{StdSort}
    (ops : list Operation) (count : Z) (top : list (string * Z)) :
  let acc := after_operations ops in
  let words := added_since_clear ops in
  ListTopWords count acc = Returns top →
  ∃ rest,
    top ++ rest ≡ₚ allWords acc
    ∧ (∀ a b, a ∈ top → b ∈ rest → snd b ≤ snd a)
    ∧ NoDup top.*1
    ∧ ∀ a, a ∈ top →
           fst a ∈ words ∧ snd a = int_wrap (occurrences (fst a) words).
Proof.
  intros acc words Htop. pose proof (well_formed_after ops) as Hwf. fold acc in Hwf.
  destruct (ListTopWords_sorted_prefix _ _ _ Htop) as (rest & Hperm & Hsorted & _).
  exists rest. split_and!; try done.
  - intros a b Ha Hb. by apply (StronglySorted_app_1_elem_of _ _ _ a b) in Hsorted.
  - pose proof (well_formed_distinct acc Hwf) as Hnd.
    rewrite <- Hperm, fmap_app in Hnd. by apply NoDup_app in Hnd as [? _].
  - intros [w c] Ha.
    assert ((w, c) ∈ allWords acc) as Hin
        by (rewrite <- Hperm; apply elem_of_app; by left).
    apply snapshot_member in Hin as [Hw Hc]; [|done]. unfold acc in Hw, Hc.
    rewrite recorded_words_after, elem_of_list_to_set in Hw.
    rewrite count_of_after in Hc. by split.
Qed.

Lemma ListTopWords_returns_the_top_witness :
  let words := ["a"; "b"; "a"; "c"; "a"; "b"] in
  ∃ rest,
    [("a", 3); ("b", 2)] ++ rest ≡ₚ allWords sample_accumulator
    ∧ (∀ a b, a ∈ [("a", 3); ("b", 2)] → b ∈ rest → snd b ≤ snd a)
    ∧ NoDup [("a", 3); ("b", 2)].*1
    ∧ ∀ a, a ∈ [("a", 3); ("b", 2)] →
           fst a ∈ words ∧ snd a = int_wrap (occurrences (fst a) words).
Proof.
  apply (@ListTopWords_returns_the_top length_StdHash merge_StdSort
           [Add "a"; Add "b"; Add "a"; Add "c"; Add "a"; Add "b"] 2).
  vm_compute. reflexivity.
Defined.

(** X6. [ListTopWords(count)] returns exactly when the accumulator is empty
    or [count] is between 0 and the number of recorded words; otherwise,
    for a negative count as for one too large, the range it copies lies
    outside [allWords].  It never fails an assertion. *)
Theorem ListTopWords_returns_iff `{StdSort} (count : Z) (acc : WordAccumulator) :
  ((∃ top, ListTopWords count acc = Returns top) ↔
   GetUniqueWordCount acc = 0%nat ∨ 0 ≤ count ≤ Z.of_nat (GetUniqueWordCount acc))
  ∧ (ListTopWords count acc = OutOfRange ↔
     GetUniqueWordCount acc ≠ 0%nat
     ∧ (count < 0 ∨ Z.of_nat (GetUniqueWordCount acc) < count))
  ∧ ListTopWords count acc ≠ AssertionFailed.
Proof.
  rewrite GetUniqueWordCount_allWords.
  destruct (decide (length (allWords acc) = 0%nat)) as [Hempty|Hsome].
  - rewrite ListTopWords_empty by by apply nil_length_inv.
    split_and!; [|split; [done | tauto]|done]. split; [by left | by eexists].
  - destruct (decide (0 ≤ count ≤ Z.of_nat (length (allWords acc)))) as [Hin|Hout].
    + rewrite ListTopWords_in_range by done.
      split_and!; [|split; [done | lia]|done]. split; [by right | by eexists].
    + rewrite ListTopWords_out_of_range;
        [| by intros Hnil; rewrite Hnil in Hsome | lia].
      split_and!; [|split; [intros _; split; [done | lia] | done]|done].
      split; [by intros [? ?] | lia].
Qed.

(** X7. The order of the [AddWord] calls does not matter to what is read
    afterwards: two sequences of calls with the same words, in any order,
    leave the same count for every word, the same number of unique words
    and the same snapshot up to the order of its entries. *)
Theorem AddWord_order_does_not_matter `{StdHash}
    (words1 words2 : list string) (acc : WordAccumulator) :
  words1 ≡ₚ words2 → well_formed acc →
  let acc1 := foldl (λ acc word, AddWord word acc) acc words1 in
  let acc2 := foldl (λ acc word, AddWord word acc) acc words2 in
  (∀ word, count_of word acc1 = count_of word acc2)
  ∧ GetUniqueWordCount acc1 = GetUniqueWordCount acc2
  ∧ allWords acc1 ≡ₚ allWords acc2.
Proof.
  intros Hperm Hwf acc1 acc2.
  assert (well_formed acc1) as Hwf1 by apply (count_of_add_words "" words1 acc Hwf).
  assert (well_formed acc2) as Hwf2 by apply (count_of_add_words "" words2 acc Hwf).
  assert (∀ word, count_of word acc1 = count_of word acc2) as Hcounts.
  { intros word. unfold acc1, acc2.
    destruct (count_of_add_words word words1 acc Hwf) as [_ ->].
    destruct (count_of_add_words word words2 acc Hwf) as [_ ->].
    by rewrite (occurrences_Permutation word words1 words2). }
  split_and!; [done | |].
  - rewrite !GetUniqueWordCount_recorded by done. unfold acc1, acc2.
    rewrite !recorded_words_add_words by done. f_equal. f_equal.
    apply set_eq. intros w. rewrite !elem_of_list_to_set. by rewrite Hperm.
  - apply NoDup_Permutation.
    + eapply NoDup_fmap_1, well_formed_distinct, Hwf1.
    + eapply NoDup_fmap_1, well_formed_distinct, Hwf2.
    + intros [w c]. rewrite !snapshot_member by done. rewrite Hcounts.
      unfold acc1, acc2. rewrite !recorded_words_add_words by done.
      rewrite !elem_of_union, !elem_of_list_to_set. by rewrite Hperm.
Qed.

Lemma AddWord_order_does_not_matter_witness :
  let H := length_StdHash in
  let acc1 := foldl (λ acc word, AddWord word acc) WordAccumulator_new ["a"; "b"; "a"] in
  let acc2 := foldl (λ acc word, AddWord word acc) WordAccumulator_new ["b"; "a"; "a"] in
  (∀ word, count_of word acc1 = count_of word acc2)
  ∧ GetUniqueWordCount acc1 = GetUniqueWordCount acc2
  ∧ allWords acc1 ≡ₚ allWords acc2.
Proof.
  intros H. apply (AddWord_order_does_not_matter ["a"; "b"; "a"] ["b"; "a"; "a"]).
  - apply perm_swap.
  - apply well_formed_new.
Defined.

(** ** More on the scanner *)

(** X8. The test on [(int)ch] accepts exactly the characters [0-9], [a-z]
    and [A-Z], and stores a character of [0-9a-z]; every byte from 128 up
    is a separator; and the outcome is the same where [char] is unsigned. *)
Theorem classify_accepts_ascii_alphanumerics (ch : ascii) :
  classify ch = (alphanumeric ch, lowercase ch)
  ∧ classify_unsigned ch = classify ch
  ∧ (fst (classify ch) = true →
     is_digit (snd (classify ch)) || is_lower (snd (classify ch)) = true)
  ∧ ((128 <=? N_of_ascii ch)%N = true → classify ch = (false, ch)).
Proof. split_and!; every_char ch. Qed.

Lemma scan_char_length `{StdHash} ch loc idx loc' idx' :
  scan_char ch loc idx = (Returns loc', idx') →
  length (wordBuffer loc') = length (wordBuffer loc).
Proof.
  unfold scan_char, store. destruct (classify ch) as [[] ch'];
    repeat case_decide; intros [= <- _]; simpl; try done; by rewrite length_insert.
Qed.

Lemma scan_loop_length `{StdHash} content loc idx loc' idx' :
  scan_loop content loc idx = (Returns loc', idx') →
  length (wordBuffer loc') = length (wordBuffer loc).
Proof.
  revert loc idx. induction content as [|ch rest IH]; intros loc idx; simpl.
  - by intros [= <- _].
  - destruct (scan_char ch loc idx) as [[loc1| |] idx1] eqn:Hch; try done.
    intros Hrest. rewrite (IH _ _ Hrest). by eapply scan_char_length.
Qed.

Lemma scan_char_separator `{StdHash} ch loc idx loc' idx' :
  alphanumeric ch = false →
  scan_char ch loc idx = (Returns loc', idx') → bufIndex loc' = 0%nat.
Proof.
  intros Hch. unfold scan_char, store. rewrite classify_spec, Hch.
  repeat case_decide; intros [= <- _]; simpl; try done. lia.
Qed.

(** X9. The scan reads a character of the word buffer only after it has
    stored it: whatever the 2048 characters of the buffer are at first, the
    loop ends in the same way (returns, or fails the assertion) and leaves
    the same accumulator, calls and output.  It never stores outside the
    buffer. *)
Theorem scan_ignores_the_initial_buffer `{StdHash}
    (content buf : list ascii) (idx : FileIndexer) :
  length buf = 2048%nat →
  let result := scan_loop content {| wordBuffer := buf; bufIndex := 0 |} idx in
  let result0 := scan_loop content {| wordBuffer := new_wordBuffer; bufIndex := 0 |} idx in
  snd result = snd result0
  ∧ ((∃ loc, fst result = Returns loc) ↔ (∃ loc, fst result0 = Returns loc))
  ∧ (fst result = AssertionFailed ↔ fst result0 = AssertionFailed)
  ∧ fst result ≠ OutOfRange.
Proof.
  intros Hbuf result result0. rewrite <- buffSize_value in Hbuf.
  pose proof (scan_loop_any_buffer content buf idx Hbuf) as [Hidx Hkind].
  fold result result0 in Hidx, Hkind.
  assert (fst result0 ≠ OutOfRange) as Hsafe.
  { unfold result0.
    destruct (decide (peak 0 content < buffSize)%nat) as [Hfit|Hover].
    - destruct (scan_loop_returns content {| wordBuffer := new_wordBuffer; bufIndex := 0 |}
                  [] idx (scanning_start _ new_wordBuffer_size) Hfit)
        as (loc' & token' & -> & _). done.
    - destruct (scan_loop_aborts content {| wordBuffer := new_wordBuffer; bufIndex := 0 |}
                  [] idx (scanning_start _ new_wordBuffer_size)) as (words & -> & _);
        [simpl; lia | done]. }
  destruct (fst result) as [loc| |], (fst result0) as [loc0| |]; try done;
    split_and!; try done; naive_solver.
Qed.

Lemma scan_ignores_the_initial_buffer_witness :
  let H := length_StdHash in
  let content := list_ascii_of_string "ab cd " in
  let result := scan_loop content {| wordBuffer := replicate 2048 "x"%char; bufIndex := 0 |}
                  fresh_indexer in
  let result0 := scan_loop content {| wordBuffer := new_wordBuffer; bufIndex := 0 |}
                   fresh_indexer in
  snd result = snd result0
  ∧ ((∃ loc, fst result = Returns loc) ↔ (∃ loc, fst result0 = Returns loc))
  ∧ (fst result = AssertionFailed ↔ fst result0 = AssertionFailed)
  ∧ fst result ≠ OutOfRange.
Proof.
  intros H content.
  apply (scan_ignores_the_initial_buffer content (replicate 2048 "x"%char) fresh_indexer).
  apply length_replicate.
Defined.

(** X10. A file can be cut after any separator: scanning a content is
    scanning its part up to and with a separator and then, as a file of its
    own, the part after it; the outcome, the accumulator, the calls and the
    output are the same. *)
Theorem ProcessFile_splits_after_a_separator `{StdHash}
    (filename : string) (content1 : list ascii) (sep : ascii) (content2 : list ascii)
    (stop : StreamEnd) (idx : FileIndexer) :
  alphanumeric sep = false →
  run_tasks [(filename, Opened (content1 ++ sep :: content2) stop)] idx
  = run_tasks [(filename, Opened (content1 ++ [sep]) EndOfFile);
               (filename, Opened content2 stop)] idx.
Proof.
  intros Hsep. rewrite !run_tasks_cons. unfold ProcessFile at 1 2.
  rewrite (cons_middle sep content1 content2), app_assoc, scan_loop_app.
  destruct (scan_loop (content1 ++ [sep]) _ idx) as [[loc1| |] idx1] eqn:Hfirst;
    [|done..].
  rewrite run_tasks_cons. unfold ProcessFile.
  assert (same_token loc1 {| wordBuffer := new_wordBuffer; bufIndex := 0 |}) as Hsame.
  { rewrite scan_loop_app in Hfirst.
    destruct (scan_loop content1 _ idx) as [[loc0| |] idx0] eqn:Hpart; try done.
    simpl in Hfirst.
    destruct (scan_char sep loc0 idx0) as [[loc0'| |] idx0'] eqn:Hch; try done.
    injection Hfirst as -> ->.
    pose proof (scan_char_separator _ _ _ _ _ Hsep Hch) as Hzero.
    split_and!; simpl.
    - done.
    - rewrite (scan_char_length _ _ _ _ _ Hch), (scan_loop_length _ _ _ _ _ Hpart). done.
    - by rewrite Hzero. }
  pose proof (scan_loop_same_token content2 _ _ idx1 Hsame) as [Hidx Hkind].
  destruct (scan_loop content2 loc1 idx1) as [[loc2| |] idx2],
           (scan_loop content2 _ idx1) as [[loc2'| |] idx2']; simpl in *; subst; done.
Qed.

Lemma ProcessFile_splits_after_a_separator_witness :
  let H := length_StdHash in
  run_tasks [("a.txt", Opened (list_ascii_of_string "ab" ++ " "%char :: list_ascii_of_string "cd ")
                              EndOfFile)] fresh_indexer
  = run_tasks [("a.txt", Opened (list_ascii_of_string "ab" ++ [" "%char]) EndOfFile);
               ("a.txt", Opened (list_ascii_of_string "cd ") EndOfFile)] fresh_indexer.
Proof.
  intros H. apply (ProcessFile_splits_after_a_separator "a.txt"). reflexivity.
Defined.

(** ** More on the walk *)

Lemma extend_indexer_nothing idx : extend_indexer idx [] [] = idx.
Proof. destruct idx. unfold extend_indexer. simpl. by rewrite !app_nil_r. Qed.

Lemma extend_indexer_twice idx tasks1 lines1 tasks2 lines2 :
  extend_indexer (extend_indexer idx tasks1 lines1) tasks2 lines2
  = extend_indexer idx (tasks1 ++ tasks2) (lines1 ++ lines2).
Proof. unfold extend_indexer. simpl. by rewrite !app_assoc. Qed.

(** The walk only posts and prints, and what it posts and prints does not
    depend on the indexer. *)
Lemma SearchForFiles_extends dir : ∀ basePath,
  ∃ tasks lines, ∀ idx, SearchForFiles basePath dir idx = extend_indexer idx tasks lines.
Proof.
  induction dir as [st err data|st entries data IH] using Path_below_ind; intros basePath.
  { exists [], [Strerror err]. intros idx. rewrite SearchForFiles_entries. simpl.
    unfold print, extend_indexer. by rewrite app_nil_r. }
  assert (∃ tasks lines, ∀ idx,
            foldl (λ idx entry, visit_entry SearchForFiles basePath entry idx) idx entries
            = extend_indexer idx tasks lines) as (tasks & lines & Hwalk).
  { induction IH as [|[d_name e] rest He _ IHrest]; cbn [foldl].
    { exists [], []. intros idx. by rewrite extend_indexer_nothing. }
    destruct IHrest as (tasks2 & lines2 & Hrest).
    assert (∃ tasks1 lines1, ∀ idx,
              visit_entry SearchForFiles basePath (d_name, e) idx
              = extend_indexer idx tasks1 lines1) as (tasks1 & lines1 & Hentry).
    { assert (∃ tasks1 lines1, ∀ idx : FileIndexer, idx = extend_indexer idx tasks1 lines1)
        as Hsame by (exists [], []; intros idx; by rewrite extend_indexer_nothing).
      unfold visit_entry.
      destruct (String.eqb d_name "." || String.eqb d_name ".."); [done|].
      destruct (lstat e) as [st_mode|]; [|done].
      destruct (S_ISLNK st_mode); [done|].
      destruct (S_ISREG st_mode).
      - destruct (ends_in_txt d_name); [|done].
        exists [(basePath +:+ "/" +:+ d_name, ifstream e)], []. intros idx.
        unfold post, extend_indexer. by rewrite app_nil_r.
      - destruct (S_ISDIR st_mode); [|done]. apply He. }
    exists (tasks1 ++ tasks2), (lines1 ++ lines2). intros idx.
    by rewrite Hentry, Hrest, extend_indexer_twice. }
  exists tasks, lines. intros idx. rewrite SearchForFiles_entries. simpl. apply Hwalk.
Qed.

Lemma SearchForFiles_found basePath dir idx :
  SearchForFiles basePath dir idx
  = extend_indexer idx (found_files basePath dir) (walk_lines basePath dir).
Proof.
  destruct (SearchForFiles_extends dir basePath) as (tasks & lines & Hwalk).
  unfold found_files, walk_lines. by rewrite !Hwalk.
Qed.

Lemma visit_entry_extends basePath entry :
  ∃ tasks lines, ∀ idx,
    visit_entry SearchForFiles basePath entry idx = extend_indexer idx tasks lines.
Proof.
  destruct entry as [d_name e].
  assert (∃ tasks1 lines1, ∀ idx : FileIndexer, idx = extend_indexer idx tasks1 lines1)
    as Hsame by (exists [], []; intros idx; by rewrite extend_indexer_nothing).
  unfold visit_entry.
  destruct (String.eqb d_name "." || String.eqb d_name ".."); [done|].
  destruct (lstat e) as [st_mode|]; [|done].
  destruct (S_ISLNK st_mode); [done|].
  destruct (S_ISREG st_mode).
  - destruct (ends_in_txt d_name); [|done].
    exists [(basePath +:+ "/" +:+ d_name, ifstream e)], []. intros idx.
    unfold post, extend_indexer. by rewrite app_nil_r.
  - destruct (S_ISDIR st_mode); [|done]. apply SearchForFiles_extends.
Qed.

(** The files found in a directory are those found at its entries, in turn:
    the entry itself when it is a regular file named ".txt", the files found
    below it when it is a directory. *)
Lemma found_files_entries basePath dir entries :
  opendir dir = inr entries →
  found_files basePath dir
  = concat (map (λ entry,
                   mIOService (visit_entry SearchForFiles basePath entry
                                 (FileIndexer_new 3))) entries).
Proof.
  intros Hopen. unfold found_files. rewrite SearchForFiles_entries, Hopen.
  assert (∀ entries (idx : FileIndexer),
            mIOService (foldl (λ idx entry, visit_entry SearchForFiles basePath entry idx)
                          idx entries)
            = mIOService idx
              ++ concat (map (λ entry,
                   mIOService (visit_entry SearchForFiles basePath entry
                                 (FileIndexer_new 3))) entries)) as Hall.
  { clear Hopen entries. intros entries.
    induction entries as [|entry rest IH]; intros idx; simpl.
    - by rewrite app_nil_r.
    - destruct (visit_entry_extends basePath entry) as (tasks & lines & Hentry).
      rewrite IH, !Hentry. simpl. by rewrite app_assoc. }
  by rewrite Hall.
Qed.

Lemma string_app_assoc (s1 s2 s3 : string) : (s1 +:+ s2) +:+ s3 = s1 +:+ s2 +:+ s3.
Proof.
  induction s1 as [|c s1 IH]; [done|].
  change (String c ((s1 +:+ s2) +:+ s3) = String c (s1 +:+ s2 +:+ s3)). by rewrite IH.
Qed.

Lemma reaches_names dir names e : reaches dir names e → names ≠ [].
Proof. by destruct 1. Qed.

Lemma path_of_below names :
  names ≠ [] → ∃ rel, ∀ basePath, path_of basePath names = basePath +:+ "/" +:+ rel.
Proof.
  induction names as [|d_name names IH]; [done|]. intros _.
  destruct names as [|d_name' names].
  - by exists d_name.
  - destruct IH as [rel Hrel]; [done|]. exists (d_name +:+ "/" +:+ rel). intros basePath.
    change (path_of basePath (d_name :: d_name' :: names))
      with (path_of (basePath +:+ "/" +:+ d_name) (d_name' :: names)).
    by rewrite Hrel, !string_app_assoc.
Qed.

Lemma path_of_last basePath names :
  names ≠ [] →
  path_of basePath names
  = path_of basePath (removelast names) +:+ "/" +:+ List.last names "".
Proof.
  intros Hne. rewrite (app_removelast_last "" Hne) at 1.
  unfold path_of. by rewrite foldl_app.
Qed.

Lemma found_files_reached dir : ∀ basePath task,
  task ∈ found_files basePath dir →
  ∃ names e, reaches dir names e ∧ regular_txt (List.last names "") e
             ∧ task = (path_of basePath names, ifstream e).
Proof.
  induction dir as [st err data|st entries data IH] using Path_below_ind;
    intros basePath task Hin.
  { unfold found_files in Hin. rewrite SearchForFiles_entries in Hin. simpl in Hin.
    by apply not_elem_of_nil in Hin. }
  rewrite (found_files_entries basePath _ entries) in Hin by done.
  apply list_elem_of_In, in_concat in Hin as (tasks & Htasks & Hin).
  apply in_map_iff in Htasks as ([d_name e] & <- & Hentry).
  apply list_elem_of_In in Hin, Hentry.
  rewrite Forall_forall in IH. specialize (IH _ Hentry). simpl in IH.
  destruct (visit_entry_cases basePath d_name e
              (FileIndexer_new 3))
    as [[Hreg Hidx]|[[Hdir Hidx]|(_ & _ & _ & Hidx)]]; rewrite Hidx in Hin; simpl in Hin.
  - apply list_elem_of_singleton in Hin as ->. exists [d_name], e.
    split_and!; [by eapply reaches_entry | done | done].
  - destruct (IH _ _ Hin) as (names & e' & Hreach & Hreg & ->).
    exists (d_name :: names), e'. split_and!.
    + by eapply reaches_below.
    + pose proof (reaches_names _ _ _ Hreach). by destruct names.
    + done.
  - by apply not_elem_of_nil in Hin.
Qed.

Lemma reached_found_files dir names e :
  reaches dir names e → regular_txt (List.last names "") e →
  ∀ basePath, (path_of basePath names, ifstream e) ∈ found_files basePath dir.
Proof.
  induction 1 as [dir entries d_name e Hopen Hentry
                 |dir entries d_name d names e Hopen Hentry Hdir Hreach IH];
    intros Hreg basePath; rewrite (found_files_entries basePath dir entries Hopen);
    apply list_elem_of_In, in_concat.
  - eexists. split; [apply in_map_iff; eexists; split; [done | by apply list_elem_of_In]|].
    apply list_elem_of_In.
    destruct (visit_entry_cases basePath d_name e
                (FileIndexer_new 3))
      as [[_ ->]|[[Hdir _]|(_ & Hnreg & _)]]; simpl.
    + left.
    + exfalso. destruct Hreg as (_ & _ & (m & Hm & _ & Hr) & _).
      destruct Hdir as (_ & _ & (m' & Hm' & _ & Hr' & _)). simpl in *. congruence.
    + by destruct Hnreg.
  - eexists. split; [apply in_map_iff; eexists; split; [done | by apply list_elem_of_In]|].
    apply list_elem_of_In.
    destruct (visit_entry_cases basePath d_name d
                (FileIndexer_new 3))
      as [[Hreg' _]|[[_ ->]|(_ & _ & Hndir & _)]]; simpl.
    + exfalso. destruct Hreg' as (_ & _ & (m & Hm & _ & Hr) & _).
      destruct Hdir as (_ & _ & (m' & Hm' & _ & Hr' & _)). congruence.
    + apply (IH) with (basePath := basePath +:+ "/" +:+ d_name).
      pose proof (reaches_names _ _ _ Hreach). by destruct names.
    + by destruct Hndir.
Qed.

(** X11. The tasks [SearchForFiles] posts are exactly the regular files
    named with the suffix ".txt" that are reached from the directory through
    directories only, symbolic links never followed, each with the path
    built from [basePath] and the names on the way (the files
    [find basePath -type f -name "*.txt"] lists). *)
Theorem SearchForFiles_posts_the_txt_files
    (basePath : string) (dir : Path) (idx : FileIndexer) (task : Task) :
  task ∈ posted_since idx (SearchForFiles basePath dir idx) ↔
  ∃ names e, reaches dir names e ∧ regular_txt (List.last names "") e
             ∧ task = (path_of basePath names, ifstream e).
Proof.
  rewrite SearchForFiles_found. unfold posted_since. simpl. rewrite drop_app_length.
  split.
  - apply found_files_reached.
  - intros (names & e & Hreach & Hreg & ->). by apply reached_found_files.
Qed.

(** X12. The walk only posts tasks and writes lines: it leaves the
    accumulator and the calls made as they are, it adds to the queue and to
    the output the same tasks and lines whatever the indexer holds, and
    every task it posts is for a path below [basePath] that ends in
    ".txt". *)
Theorem SearchForFiles_only_posts
    (basePath : string) (dir : Path) (idx : FileIndexer) :
  SearchForFiles basePath dir idx
  = extend_indexer idx (found_files basePath dir) (walk_lines basePath dir)
  ∧ ∀ task, task ∈ found_files basePath dir →
            ∃ rel stem, fst task = basePath +:+ "/" +:+ rel
                        ∧ fst task = stem +:+ ".txt".
Proof.
  split; [apply SearchForFiles_found|]. intros task Hin.
  apply found_files_reached in Hin as (names & e & Hreach & Hreg & ->). simpl.
  pose proof (reaches_names _ _ _ Hreach) as Hne.
  destruct (path_of_below names Hne) as [rel Hrel]. exists rel.
  destruct Hreg as (_ & _ & _ & stem & Hstem).
  exists (path_of basePath (removelast names) +:+ "/" +:+ stem).
  split; [apply Hrel|]. by rewrite path_of_last, Hstem, !string_app_assoc.
Qed.

(** ** The whole run *)

Lemma fits_dec textFile : fits textFile ∨ ¬ fits textFile.
Proof.
  unfold fits. rewrite fits_peak.
  destruct (decide (peak 0 (delivered textFile) < buffSize)%nat); [by left | by right].
Qed.

Lemma ProcessFile_overflows `{StdHash} filename textFile idx :
  ¬ fits textFile →
  ∃ idx', ProcessFile filename textFile idx = (AssertionFailed, idx').
Proof.
  intros Hnot. destruct textFile as [err|content stop].
  - destruct Hnot. intros run Hrun. simpl in Hrun. by apply elem_of_nil in Hrun.
  - unfold fits in Hnot. rewrite fits_peak in Hnot. simpl in Hnot.
    destruct (ProcessFile_aborts filename content stop idx) as (words & Hrun & _); [lia|].
    by eexists.
Qed.

Lemma run_tasks_outcome `{StdHash} tasks idx :
  (Forall (λ task, fits (snd task)) tasks ∧ fst (run_tasks tasks idx) = Returns ())
  ∨ (Exists (λ task, ¬ fits (snd task)) tasks
     ∧ fst (run_tasks tasks idx) = AssertionFailed).
Proof.
  revert idx. induction tasks as [|[filename textFile] tasks IH]; intros idx.
  - left. by split.
  - rewrite run_tasks_cons. destruct (fits_dec textFile) as [Hfits|Hnot].
    + destruct (ProcessFile_fits filename textFile idx Hfits) as (idx1 & -> & _).
      destruct (IH idx1) as [[Hall Hrun]|[Hsome Hrun]].
      * left. split; [by constructor | done].
      * right. split; [by apply Exists_cons_tl | done].
    + destruct (ProcessFile_overflows filename textFile idx Hnot) as (idx1 & ->).
      right. split; [by apply Exists_cons_hd | done].
Qed.

Lemma ProcessFile_queue `{StdHash} filename textFile idx :
  mIOService (snd (ProcessFile filename textFile idx)) = mIOService idx.
Proof.
  destruct textFile as [err|content stop]; [done|].
  destruct (decide (peak 0 content < buffSize)%nat) as [Hfit|Hover].
  - rewrite ProcessFile_returns by done. cbn [snd].
    destruct stop; simpl; apply add_words_mIOService.
  - destruct (ProcessFile_aborts filename content stop idx) as (ws & -> & _); [lia|].
    apply add_words_mIOService.
Qed.

Lemma run_tasks_queue `{StdHash} tasks idx :
  mIOService (snd (run_tasks tasks idx)) = mIOService idx.
Proof.
  revert idx. induction tasks as [|[filename textFile] tasks IH]; intros idx; [done|].
  rewrite run_tasks_cons. pose proof (ProcessFile_queue filename textFile idx) as Hfile.
  destruct (ProcessFile filename textFile idx) as [[[]| |] idx1]; cbn [snd] in *;
    [|done|done].
  by rewrite IH.
Qed.

Lemma Run_workers `{StdHash} mBasePath root idx :
  0 < mFileProcessingThreads idx →
  mIOService_stopped idx = false →
  mIOService idx = [] →
  Run mBasePath root idx
  = match run_tasks (found_files mBasePath root) (walked mBasePath root idx) with
    | (Returns _, idx') =>
        (Returns (),
         print (WordsFound (GetUniqueWordCount (mWordsFound idx'))) (mIOService_stop idx'))
    | failed => failed
    end.
Proof.
  intros Hthreads%Z.ltb_lt Hstopped Hqueue. unfold Run. rewrite SearchForFiles_found.
  unfold take_posted, extend_indexer, mWordsFound_ClearResults, walked.
  cbn [mIOService cout calls mWordsFound mFileProcessingThreads mIOService_stopped].
  by rewrite Hqueue, Hstopped, Hthreads.
Qed.

(** Without a worker that runs handlers, [Run] clears, walks and reports:
    the handlers stay in the queue. *)
Lemma Run_no_worker `{StdHash} mBasePath root idx :
  mFileProcessingThreads idx ≤ 0 ∨ mIOService_stopped idx = true →
  Run mBasePath root idx
  = (Returns (),
     print (WordsFound 0)
       (extend_indexer (mWordsFound_ClearResults idx)
          (found_files mBasePath root) (walk_lines mBasePath root))).
Proof.
  intros Hnone. unfold Run. rewrite SearchForFiles_found.
  cbn [extend_indexer mWordsFound_ClearResults mIOService cout calls mWordsFound
       mFileProcessingThreads mIOService_stopped].
  assert ((0 <? mFileProcessingThreads idx) && negb (mIOService_stopped idx) = false)
    as ->.
  { destruct Hnone as [Hthreads%Z.ltb_ge| ->];
      [by rewrite Hthreads | apply andb_false_r]. }
  do 3 f_equal. rewrite GetUniqueWordCount_allWords, allWords_concat. simpl.
  assert (concat (map (λ _ : list (string * Z), ([] : list (string * Z)))
                      (mBins (mWordsFound idx))) = [])
    as -> by (induction (mBins (mWordsFound idx)); simpl; auto).
  done.
Qed.

Lemma Run_fits `{StdHash} mBasePath root idx :
  0 < mFileProcessingThreads idx →
  mIOService_stopped idx = false →
  mIOService idx = [] →
  well_formed (mWordsFound idx) →
  Forall (λ task, fits (snd task)) (found_files mBasePath root) →
  ∃ final,
    Run mBasePath root idx = (Returns (), final)
    ∧ well_formed (mWordsFound final)
    ∧ (∀ word, count_of word (mWordsFound final)
               = int_wrap (occurrences word (words_of_tasks (found_files mBasePath root))))
    ∧ recorded_words (mWordsFound final)
      = list_to_set (words_of_tasks (found_files mBasePath root))
    ∧ cout final
      = (cout idx ++ walk_lines mBasePath root
         ++ concat (map (λ task, diagnostics (fst task) (snd task))
                        (found_files mBasePath root)))
        ++ [WordsFound (GetUniqueWordCount (mWordsFound final))]
    ∧ calls final = calls idx ++ words_of_tasks (found_files mBasePath root)
    ∧ mIOService final = []
    ∧ mIOService_stopped final = true.
Proof.
  intros Hthreads Hstopped Hqueue Hwf Hfits. rewrite Run_workers by done.
  pose proof (run_tasks_queue (found_files mBasePath root) (walked mBasePath root idx))
    as Hkeep.
  destruct (run_tasks_fits (found_files mBasePath root) (walked mBasePath root idx) Hfits)
    as (idx' & Hrun & Hcalls & Hwords & Hcout).
  rewrite Hrun in Hkeep |- *.
  cbn [walked mWordsFound calls cout mIOService snd] in Hcalls, Hwords, Hcout, Hkeep.
  pose proof (well_formed_ClearResults _ Hwf) as Hwf0.
  destruct (count_of_add_words EmptyString (words_of_tasks (found_files mBasePath root))
              _ Hwf0) as [Hwf' _].
  eexists. split; [done|]. unfold print, mIOService_stop.
  cbn [mWordsFound cout calls mIOService mIOService_stopped].
  split_and!.
  - by rewrite Hwords.
  - intros word. rewrite Hwords.
    destruct (count_of_add_words word (words_of_tasks (found_files mBasePath root)) _ Hwf0)
      as [_ ->].
    by rewrite count_of_ClearResults.
  - rewrite Hwords.
    rewrite recorded_words_add_words, recorded_words_ClearResults by done.
    set_solver.
  - by rewrite Hcout, <- !app_assoc.
  - done.
  - done.
  - done.
Qed.

(** X13. [Run] on an indexer that has workers (a positive number of
    threads), whose io_service has not been stopped and whose queue is
    empty, over a tree whose text files have no run of more than 2047
    alphanumeric characters: it returns; the count of every word is then
    the number of its occurrences in the words of the files the walk found,
    held in an [int] (that number itself up to [INT_MAX]); the number it
    reports in its last line is the number of distinct words among them;
    the queue is empty again and the io_service is stopped. *)
Theorem Run_counts_the_files_found `{StdHash}
    (mBasePath : string) (root : Path) (idx : FileIndexer) :
  0 < mFileProcessingThreads idx →
  mIOService_stopped idx = false →
  mIOService idx = [] →
  well_formed (mWordsFound idx) →
  Forall (λ task, fits (snd task)) (found_files mBasePath root) →
  let words := words_of_tasks (found_files mBasePath root) in
  ∃ final,
    Run mBasePath root idx = (Returns (), final)
    ∧ (∀ word,
         count_of word (mWordsFound final) = int_wrap (occurrences word words)
         ∧ (occurrences word words ≤ INT_MAX →
            count_of word (mWordsFound final) = occurrences word words))
    ∧ GetUniqueWordCount (mWordsFound final) = size (list_to_set words : gset string)
    ∧ last (cout final) = Some (WordsFound (GetUniqueWordCount (mWordsFound final)))
    ∧ calls final = calls idx ++ words
    ∧ mIOService final = []
    ∧ mIOService_stopped final = true.
Proof.
  intros Hthreads Hstopped Hqueue Hwf Hfits words.
  destruct (Run_fits mBasePath root idx Hthreads Hstopped Hqueue Hwf Hfits)
    as (final & Hrun & Hwf' & Hcount & Hrecorded & Hcout & Hcalls & Hempty & Hstop).
  exists final. split_and!; try done.
  - intros word. split; [apply Hcount|]. intros Hmax. rewrite Hcount.
    apply int_wrap_small. unfold words, occurrences, INT_MIN, INT_MAX in *. lia.
  - rewrite GetUniqueWordCount_recorded by done. by rewrite Hrecorded.
  - by rewrite Hcout, last_snoc.
Qed.

(** X14. [Run] on an indexer whose queue is empty.  With workers (a
    positive number of threads) and an io_service that has not been
    stopped, it returns exactly when no text file the walk found has a run
    of more than 2047 alphanumeric characters, and the assertion of the
    scanner ends it exactly when one has.  Without a worker (the number of
    threads is not positive), or with the io_service stopped (as a first
    [Run] leaves it), it returns whatever the files hold: no handler is
    run, no [AddWord] call is made, the handlers posted stay in the queue
    and the line reports 0 words.  It never reads or writes out of
    range. *)
Theorem Run_returns_iff `{StdHash} (mBasePath : string) (root : Path) (idx : FileIndexer) :
  mIOService idx = [] →
  let outcome := fst (Run mBasePath root idx) in
  let final := snd (Run mBasePath root idx) in
  (0 < mFileProcessingThreads idx ∧ mIOService_stopped idx = false →
   (outcome = Returns () ↔
    Forall (λ task, fits (snd task)) (found_files mBasePath root))
   ∧ (outcome = AssertionFailed ↔
      Exists (λ task, ¬ fits (snd task)) (found_files mBasePath root)))
  ∧ (mFileProcessingThreads idx ≤ 0 ∨ mIOService_stopped idx = true →
     outcome = Returns ()
     ∧ calls final = calls idx
     ∧ mWordsFound final = ClearResults (mWordsFound idx)
     ∧ mIOService final = found_files mBasePath root
     ∧ cout final = cout idx ++ walk_lines mBasePath root ++ [WordsFound 0])
  ∧ outcome ≠ OutOfRange.
Proof.
  intros Hqueue outcome final. subst outcome final.
  destruct (decide (0 < mFileProcessingThreads idx ∧ mIOService_stopped idx = false))
    as [[Hthreads Hstopped]|Hnone].
  - rewrite Run_workers by done.
    destruct (run_tasks_outcome (found_files mBasePath root)
                (walked mBasePath root idx)) as [[Hall Hrun]|[Hsome Hrun]];
      destruct (run_tasks _ _) as [[[]| |] idx']; cbn [fst] in *; try done.
    + split_and!; [|intros [?|?]; [lia | congruence]|done]. intros _.
      split; [done|]. split; [done|].
      intros Hsome. by apply Exists_not_Forall in Hsome.
    + split_and!; [|intros [?|?]; [lia | congruence]|done]. intros _.
      split; [|done]. split; [done|].
      intros Hall. by apply Exists_not_Forall in Hsome.
  - assert (mFileProcessingThreads idx ≤ 0 ∨ mIOService_stopped idx = true) as Hno.
    { destruct (mIOService_stopped idx); [by right | left].
      destruct (decide (0 < mFileProcessingThreads idx)); [|lia]. by destruct Hnone. }
    rewrite Run_no_worker by done. cbn [fst snd]. split_and!; [done| |done].
    intros _. unfold print, extend_indexer, mWordsFound_ClearResults.
    cbn [mWordsFound cout calls mIOService]. rewrite Hqueue, <- app_assoc. done.
Qed.

Lemma Run_returns_iff_witness :
  let H := length_StdHash in
  (fst (Run "/data" sample_tree fresh_indexer) = Returns () ↔
   Forall (λ task, fits (snd task)) (found_files "/data" sample_tree))
  ∧ fst (Run "/data" sample_tree (FileIndexer_new 0)) = Returns ()
  ∧ calls (snd (Run "/data" sample_tree (FileIndexer_new 0))) = []
  ∧ mIOService (snd (Run "/data" sample_tree (FileIndexer_new 0)))
    = found_files "/data" sample_tree
  ∧ cout (snd (Run "/data" sample_tree (FileIndexer_new 0)))
    = [] ++ walk_lines "/data" sample_tree ++ [WordsFound 0].
Proof.
  intros H.
  destruct (Run_returns_iff "/data" sample_tree fresh_indexer eq_refl)
    as (Hworkers & _ & _).
  destruct (Run_returns_iff "/data" sample_tree (FileIndexer_new 0) eq_refl)
    as (_ & Hnone & _).
  destruct Hworkers as [Hreturns _]; [split; reflexivity|].
  destruct Hnone as (Hout & Hcalls & _ & Hqueue & Hcout); [left; cbn; lia|].
  split_and!; assumption.
Defined.

Lemma sample_tree_fits :
  Forall (λ task, fits (snd task)) (found_files "/data" sample_tree).
Proof.
  apply Forall_forall. intros task Hin. apply fits_by_peak.
  assert (Forall (λ task, (peak 0 (delivered (snd task)) ≤ 2047)%nat)
                 (found_files "/data" sample_tree)) as Hall.
  { apply Forall_forall. intros t Ht. vm_compute in Ht.
    repeat (apply elem_of_cons in Ht as [->|Ht]; [vm_compute; lia|]).
    by apply elem_of_nil in Ht. }
  rewrite Forall_forall in Hall. by apply Hall.
Defined.

Lemma Run_counts_the_files_found_witness :
  let H := length_StdHash in
  let words := words_of_tasks (found_files "/data" sample_tree) in
  ∃ final,
    Run "/data" sample_tree fresh_indexer = (Returns (), final)
    ∧ (∀ word,
         count_of word (mWordsFound final) = int_wrap (occurrences word words)
         ∧ (occurrences word words ≤ INT_MAX →
            count_of word (mWordsFound final) = occurrences word words))
    ∧ GetUniqueWordCount (mWordsFound final) = size (list_to_set words : gset string)
    ∧ last (cout final) = Some (WordsFound (GetUniqueWordCount (mWordsFound final)))
    ∧ calls final = calls fresh_indexer ++ words
    ∧ mIOService final = []
    ∧ mIOService_stopped final = true.
Proof.
  intros H. apply (Run_counts_the_files_found "/data" sample_tree fresh_indexer).
  - reflexivity.
  - reflexivity.
  - reflexivity.
  - apply well_formed_new.
  - apply sample_tree_fits.
Defined.

(** The program run with no worker, and [Run] called a second time: the
    files are found and none is read. *)
Example Run_without_workers :
  let H := length_StdHash in
  let none := Run "/data" sample_tree (FileIndexer_new 0) in
  let first := Run "/data" sample_tree fresh_indexer in
  let second := Run "/data" sample_tree (snd first) in
  fst none = Returns ()
  ∧ cout (snd none) = [WordsFound 0]
  ∧ calls (snd none) = []
  ∧ map fst (mIOService (snd none)) = ["/data/a.txt"; "/data/b.txt"]
  ∧ cout (snd first) = [WordsFound 2]
  ∧ fst second = Returns ()
  ∧ cout (snd second) = [WordsFound 2; WordsFound 0]
  ∧ calls (snd second) = calls (snd first).
Proof. intros H none first second. vm_compute. done. Qed.


(** ** The command line and main *)

Section CommandLineFacts.
Context `{CommandLine}.

Lemma Parse_stores argv : mVarMap (snd (Parse argv)) = (store_notify argv).1.
Proof.
  unfold Parse. destruct (store_notify argv) as [parsed [what|]]; cbn [fst snd];
    repeat case_match; done.
Qed.

(** [Parse] throws nothing but its own exception. *)
Lemma Parse_throws argv e options :
  Parse argv = (Throw e, options) → ∃ what, e = ProgramOptionsException what.
Proof.
  unfold Parse. pose proof (threads_is_int argv) as Hint.
  pose proof (threads_has_default argv) as Hdefault.
  destruct (store_notify argv) as [parsed [what|]]; cbn [fst snd mVarMap] in *.
  - case_match; intros [= <- <-]. by eexists.
  - destruct Hdefault as [v Hv]; [done|]. destruct (Hint v Hv) as [n ->].
    rewrite Hv. cbn [as_int]. repeat case_match; intros [= <- <-]; by eexists.
Qed.

(** What holds when [Parse] has returned. *)
Lemma Parse_returns argv options :
  Parse argv = (Ok (), options) →
  HelpRequested options = true
  ∨ (HelpRequested options = false
     ∧ ∃ searchPath threadCount,
         mVarMap options !! "path" = Some (string_value searchPath)
         ∧ mVarMap options !! "threads" = Some (int_value threadCount)
         ∧ 0 < threadCount).
Proof.
  unfold Parse, HelpRequested. pose proof (path_is_string argv) as Hstring.
  destruct (store_notify argv) as [parsed [what|]]; cbn [fst snd mVarMap] in *.
  - destruct (mVarMap_count "help" _ =? 0) eqn:Hhelp; intros [= <-].
    left. apply Z.ltb_lt. apply Z.eqb_neq in Hhelp.
    unfold mVarMap_count in *. by case_match.
  - destruct (mVarMap_count "help" _ =? 0) eqn:Hhelp.
    + destruct (mVarMap_count "path" _ <=? 0) eqn:Hpath; [done|].
      destruct (as_int (parsed !! "threads")) as [threads|] eqn:Hthreads; [|done].
      destruct (threads <=? 0) eqn:Hpos; [done|]. intros [= <-]. right.
      apply Z.eqb_eq in Hhelp. rewrite Hhelp. split; [done|].
      apply Z.leb_gt in Hpath, Hpos. unfold mVarMap_count in Hpath. cbn [mVarMap] in *.
      destruct (parsed !! "path") as [v|] eqn:Hv; [|done].
      destruct (Hstring v eq_refl) as [searchPath ->].
      exists searchPath, threads. split_and!; [done| |done].
      destruct (parsed !! "threads") as [[|n|]|]; try done.
      by injection Hthreads as ->.
    + intros [= <-]. left. apply Z.ltb_lt. apply Z.eqb_neq in Hhelp.
      unfold mVarMap_count in *. by case_match.
Qed.

(** With the help option stored, [Parse] returns. *)
Lemma Parse_help argv :
  HelpRequested (snd (Parse argv)) = true → fst (Parse argv) = Ok ().
Proof.
  unfold Parse, HelpRequested.
  destruct (store_notify argv) as [parsed [what|]];
    destruct (mVarMap_count "help" {| mVarMap := parsed |} =? 0) eqn:Hhelp;
    cbn [fst snd]; try done; apply Z.eqb_eq in Hhelp.
  - rewrite Hhelp. done.
  - repeat case_match; cbn [snd]; rewrite Hhelp; done.
Qed.

Lemma GetOptionValue_stored {T} (as_T : option variable_value → Try T)
    optionName options v :
  mVarMap options !! optionName = Some v →
  GetOptionValue as_T optionName options = as_T (Some v).
Proof. intros Hv. unfold GetOptionValue, mVarMap_count. by rewrite Hv. Qed.
End CommandLineFacts.

(** X15. When [Parse] has returned and the help option is not set, the
    two [GetOptionValue] calls of [main] return: the path is there, and the
    number of threads is there and positive.  And [Parse] throws nothing
    but [ProgramOptionsException], and does not throw when the help option
    is set. *)
Theorem Parse_validates_the_options `{CommandLine} (argv : list string) :
  (∀ options,
     Parse argv = (Ok (), options) → HelpRequested options = false →
     ∃ searchPath threadCount,
       GetOptionValue as_string "path" options = Ok searchPath
       ∧ GetOptionValue as_int "threads" options = Ok threadCount
       ∧ 0 < threadCount)
  ∧ (∀ e, fst (Parse argv) = Throw e → ∃ what, e = ProgramOptionsException what)
  ∧ (HelpRequested (snd (Parse argv)) = true → fst (Parse argv) = Ok ()).
Proof.
  split_and!.
  - intros options Hparse Hhelp.
    destruct (Parse_returns argv options Hparse)
      as [Hset|(_ & searchPath & threadCount & Hpath & Hthreads & Hpos)]; [congruence|].
    exists searchPath, threadCount.
    by rewrite (GetOptionValue_stored _ _ _ _ Hpath),
               (GetOptionValue_stored _ _ _ _ Hthreads).
  - intros e He. destruct (Parse argv) as [outcome options] eqn:Hparse.
    simpl in He. subst outcome. by apply Parse_throws in Hparse.
  - apply Parse_help.
Qed.

Section MainFacts.
Context `{StdHash} `{StdSort} `{CommandLine}.

(** [main] from the point where the options are read. *)
Lemma main_validated argv filesystem options searchPath threadCount :
  Parse argv = (Ok (), options) →
  HelpRequested options = false →
  GetOptionValue as_string "path" options = Ok searchPath →
  GetOptionValue as_int "threads" options = Ok threadCount →
  main argv filesystem
  = match opendir (filesystem searchPath) with
    | inl _ => (Exits 1, [PathDoesNotExist searchPath])
    | inr _ =>
        match Run searchPath (filesystem searchPath) (FileIndexer_new threadCount) with
        | (Returns _, ssfi) =>
            match FileIndexer_ListTopWords 10 ssfi with
            | Returns topWords =>
                (Exits 0,
                 map FromIndexer (cout ssfi)
                 ++ map (λ word, TopWord (fst word) (snd word)) topWords)
            | AssertionFailed => (Aborted, map FromIndexer (cout ssfi))
            | OutOfRange => (Undefined, map FromIndexer (cout ssfi))
            end
        | (AssertionFailed, ssfi) => (Aborted, map FromIndexer (cout ssfi))
        | (OutOfRange, ssfi) => (Undefined, map FromIndexer (cout ssfi))
        end
    end.
Proof.
  intros Hparse Hhelp Hpath Hthreads. unfold main.
  by rewrite Hparse, Hhelp, Hpath, Hthreads.
Qed.
End MainFacts.

(** X16. How [main] ends: never by an exception nothing catches (so the
    "not found" of [GetOptionValue] is never thrown there); with status 0
    and the help message alone when the help option is set, whatever else
    the command line holds; with status 1, the message, an empty line and
    the help message when [Parse] throws; and with status 1 exactly when
    [Parse] throws or the search path cannot be opened, in which case
    nothing is walked. *)
Theorem main_exit_status `{StdHash} `{StdSort} `{CommandLine}
    (argv : list string) (filesystem : string → Path) :
  (∀ e, fst (main argv filesystem) ≠ Terminated e)
  ∧ (HelpRequested (snd (Parse argv)) = true →
     main argv filesystem = (Exits 0, [HelpMessage]))
  ∧ (∀ what, fst (Parse argv) = Throw (ProgramOptionsException what) →
             main argv filesystem = (Exits 1, [What what; EmptyLine; HelpMessage]))
  ∧ (∀ status, fst (main argv filesystem) = Exits status → status = 0 ∨ status = 1)
  ∧ (fst (main argv filesystem) = Exits 1 ↔
     (∃ what, fst (Parse argv) = Throw (ProgramOptionsException what))
     ∨ (fst (Parse argv) = Ok ()
        ∧ HelpRequested (snd (Parse argv)) = false
        ∧ ∃ searchPath err,
            GetOptionValue as_string "path" (snd (Parse argv)) = Ok searchPath
            ∧ opendir (filesystem searchPath) = inl err))
  ∧ (fst (main argv filesystem) = Exits 1 →
     ∀ line, FromIndexer line ∉ snd (main argv filesystem)).
Proof.
  destruct (Parse argv) as [[[]|e] options] eqn:Hparse; cbn [fst snd].
  - destruct (Parse_returns argv options Hparse)
      as [Hset|(Hunset & searchPath & threadCount & Hpath & Hthreads & Hpos)].
    + assert (main argv filesystem = (Exits 0, [HelpMessage])) as ->
        by (unfold main; by rewrite Hparse, Hset).
      rewrite Hset. cbn [fst snd]. split_and!; try done.
      * intros status [= <-]. by left.
      * split; [done|]. by intros [[what Hwhat]|(_ & Hno & _)].
    + pose proof (GetOptionValue_stored as_string _ _ _ Hpath) as Hvalue.
      pose proof (GetOptionValue_stored as_int _ _ _ Hthreads) as Hcount.
      cbn [as_string as_int] in Hvalue, Hcount.
      rewrite (main_validated argv filesystem options searchPath threadCount
                 Hparse Hunset Hvalue Hcount).
      rewrite Hunset, Hvalue.
      destruct (opendir (filesystem searchPath)) as [err|entries] eqn:Hopen.
      * cbn [fst snd]. split_and!; try done.
        -- intros status [= <-]. by right.
        -- split; [|done]. intros _. right. split_and!; try done.
           by exists searchPath, err.
        -- intros _ line Hline. apply list_elem_of_singleton in Hline. done.
      * assert (∀ err' : Z, inr entries ≠ (inl err' : Z + list (string * Path)))
          as Hinr by done.
        destruct (Run _ _ _) as [[[]| |] ssfi]; [destruct (FileIndexer_ListTopWords _ _)|..];
          cbn [fst snd]; split_and!; try done;
          first [ by (intros status [= <-]; left)
                | split; [done|];
                  intros [[what Hwhat]|(_ & _ & searchPath' & err & [= <-] & Hfail)];
                  [done | by rewrite Hopen in Hfail] ].
  - destruct (Parse_throws argv e options Hparse) as [what ->].
    assert (main argv filesystem = (Exits 1, [What what; EmptyLine; HelpMessage])) as ->
      by (unfold main; by rewrite Hparse).
    cbn [fst snd]. split_and!; try done.
    + intros Hset. pose proof (Parse_help argv) as Hhelp. rewrite Hparse in Hhelp.
      cbn [fst snd] in Hhelp. by specialize (Hhelp Hset).
    + intros what' [= <-]. done.
    + intros status [= <-]. by right.
    + split; [|done]. intros _. left. by exists what.
    + intros _ line Hline. repeat (apply elem_of_cons in Hline as [Hline|Hline]; [done|]).
      by apply elem_of_nil in Hline.
Qed.

(** X17. [main] on a command line that names a path that can be opened,
    over a tree whose text files have no run of more than 2047 alphanumeric
    characters, with [n] the number of distinct words of the files found:
    when [n] is from 1 to 9, [ListTopWords(10)] reads beyond the words and
    the behaviour is undefined; when [n] is 0 or at least 10, [main]
    returns 0 after the line with [n] and one line for each of [min 10 n]
    words, all different words of the files, in non-increasing order of
    their counts, each with the number of its occurrences in the files held
    in an [int], and no word of the files left out has a count above that
    of a word listed. *)
Theorem main_lists_the_top_ten `{StdHash} `{StdSort} `{CommandLine}
    (argv : list string) (filesystem : string → Path)
    (options : ProgramOptions) (searchPath : string) :
  Parse argv = (Ok (), options) →
  HelpRequested options = false →
  GetOptionValue as_string "path" options = Ok searchPath →
  (∃ entries, opendir (filesystem searchPath) = inr entries) →
  Forall (λ task, fits (snd task)) (found_files searchPath (filesystem searchPath)) →
  let words := words_of_tasks (found_files searchPath (filesystem searchPath)) in
  let n := size (list_to_set words : gset string) in
  ((0 < n < 10)%nat → fst (main argv filesystem) = Undefined)
  ∧ (n = 0%nat ∨ (10 ≤ n)%nat →
     ∃ lines topWords,
       main argv filesystem
       = (Exits 0,
          map FromIndexer (lines ++ [WordsFound n])
          ++ map (λ word, TopWord (fst word) (snd word)) topWords)
       ∧ length topWords = Nat.min 10 n
       ∧ StronglySorted (λ a b : WordCountType, snd b ≤ snd a) topWords
       ∧ NoDup topWords.*1
       ∧ ∀ a, a ∈ topWords →
              fst a ∈ words
              ∧ snd a = int_wrap (occurrences (fst a) words)
              ∧ ∀ word, word ∈ words → word ∉ topWords.*1 →
                        int_wrap (occurrences word words) ≤ snd a).
Proof.
  intros Hparse Hhelp Hpath [entries Hopen] Hfits words n.
  destruct (Parse_returns argv options Hparse)
    as [Hset|(_ & searchPath' & threadCount & _ & Hthreads & Hpos)]; [congruence|].
  pose proof (GetOptionValue_stored as_int _ _ _ Hthreads) as Hcount.
  cbn [as_int] in Hcount.
  rewrite (main_validated argv filesystem options searchPath threadCount
             Hparse Hhelp Hpath Hcount), Hopen.
  clear Hcount.
  destruct (Run_fits searchPath (filesystem searchPath) (FileIndexer_new threadCount)
              Hpos eq_refl eq_refl well_formed_new Hfits)
    as (final & -> & Hwf & Hcount & Hrecorded & Hcout & _).
  fold words in Hcount, Hrecorded.
  assert (GetUniqueWordCount (mWordsFound final) = n) as Hunique
      by (rewrite GetUniqueWordCount_recorded by done; by rewrite Hrecorded).
  unfold FileIndexer_ListTopWords.
  pose proof (GetUniqueWordCount_allWords (mWordsFound final)) as Hlen.
  rewrite Hunique in Hlen. split.
  - intros Hn. rewrite ListTopWords_out_of_range; [done | | lia].
    intros Hnil. rewrite Hnil in Hlen. simpl in Hlen. lia.
  - intros Hn.
    assert (∃ top, ListTopWords 10 (mWordsFound final) = Returns top) as [top Htop].
    { destruct Hn as [Hn|Hn].
      - rewrite ListTopWords_empty; [by eexists|]. apply nil_length_inv. lia.
      - rewrite ListTopWords_in_range by lia. by eexists. }
    rewrite Htop, Hcout, Hunique.
    destruct (ListTopWords_sorted_prefix _ _ _ Htop) as (rest & Hperm & Hsorted & Hsize).
    eexists _, top. split; [done|].
    pose proof (Permutation_length Hperm) as Hlength. rewrite length_app in Hlength.
    split_and!.
    + destruct Hsize as [Hnil|Hsize];
        [rewrite Hnil in Hlength, Hlen; cbn [length] in Hlength, Hlen; lia|].
      change (Z.to_nat 10) with 10%nat in Hsize. lia.
    + rewrite <- (take_app_length top rest). by apply StronglySorted_take.
    + pose proof (well_formed_distinct _ Hwf) as Hnd.
      rewrite <- Hperm, fmap_app in Hnd. by apply NoDup_app in Hnd as [? _].
    + intros [w c] Ha.
      assert ((w, c) ∈ allWords (mWordsFound final)) as Hin
          by (rewrite <- Hperm; apply elem_of_app; by left).
      apply snapshot_member in Hin as [Hw Hc]; [|done].
      rewrite Hrecorded, elem_of_list_to_set in Hw. rewrite Hcount in Hc.
      cbn [fst snd]. split_and!; [done | done |].
      intros word Hword Hout.
      assert ((word, int_wrap (occurrences word words)) ∈ allWords (mWordsFound final))
        as Hother.
      { apply snapshot_member; [done|]. rewrite Hrecorded, elem_of_list_to_set.
        by split. }
      rewrite <- Hperm in Hother. apply elem_of_app in Hother as [Hother|Hother].
      * destruct Hout. apply list_elem_of_fmap.
        by exists (word, int_wrap (occurrences word words)).
      * by apply (StronglySorted_app_1_elem_of _ _ _ (w, c) _ Hsorted Ha) in Hother.
Qed.

(** ** The sample command lines *)

Lemma sample_threads_is_int argv v :
  (sample_store_notify argv).1 !! "threads" = Some v → ∃ n, v = int_value n.
Proof.
  unfold sample_store_notify. repeat case_match; cbn [fst]; intros Hv;
    vm_compute in Hv; try done; injection Hv as <-; by eexists.
Qed.

Lemma sample_path_is_string argv v :
  (sample_store_notify argv).1 !! "path" = Some v → ∃ s, v = string_value s.
Proof.
  unfold sample_store_notify. repeat case_match; cbn [fst]; intros Hv;
    vm_compute in Hv; try done; injection Hv as <-; by eexists.
Qed.

Lemma sample_threads_has_default argv :
  (sample_store_notify argv).2 = None →
  is_Some ((sample_store_notify argv).1 !! "threads").
Proof.
  unfold sample_store_notify. repeat case_match; cbn [fst snd]; intros Herror;
    try done; by eexists.
Qed.

Definition sample_CommandLine : CommandLine :=
  {| store_notify := sample_store_notify;
     threads_is_int := sample_threads_is_int;
     path_is_string := sample_path_is_string;
     threads_has_default := sample_threads_has_default |}.

Lemma eleven_words_tree_fits :
  Forall (λ task, fits (snd task)) (found_files "/data" eleven_words_tree).
Proof.
  apply Forall_forall. intros task Hin. apply fits_by_peak.
  assert (Forall (λ task, (peak 0 (delivered (snd task)) ≤ 2047)%nat)
                 (found_files "/data" eleven_words_tree)) as Hall.
  { apply Forall_forall. intros t Ht. vm_compute in Ht.
    repeat (apply elem_of_cons in Ht as [->|Ht]; [vm_compute; lia|]).
    by apply elem_of_nil in Ht. }
  rewrite Forall_forall in Hall. by apply Hall.
Defined.

Lemma main_lists_the_top_ten_witness :
  let H := length_StdHash in
  let HS := merge_StdSort in
  let HC := sample_CommandLine in
  let words := words_of_tasks (found_files "/data" eleven_words_tree) in
  let n := size (list_to_set words : gset string) in
  fst (main ["ssfi"; "/data"] (λ _, sample_tree)) = Undefined
  ∧ ∃ lines topWords,
      main ["ssfi"; "/data"] (λ _, eleven_words_tree)
      = (Exits 0,
         map FromIndexer (lines ++ [WordsFound n])
         ++ map (λ word, TopWord (fst word) (snd word)) topWords)
      ∧ length topWords = Nat.min 10 n
      ∧ StronglySorted (λ a b : WordCountType, snd b ≤ snd a) topWords
      ∧ NoDup topWords.*1
      ∧ ∀ a, a ∈ topWords →
             fst a ∈ words
             ∧ snd a = int_wrap (occurrences (fst a) words)
             ∧ ∀ word, word ∈ words → word ∉ topWords.*1 →
                       int_wrap (occurrences word words) ≤ snd a.
Proof.
  intros H HS HC words n. split.
  - destruct (main_lists_the_top_ten ["ssfi"; "/data"] (λ _, sample_tree)
                {| mVarMap := {[ "path" := string_value "/data";
                                 "threads" := int_value 3 ]} |}
                "/data") as [Hfew _].
    + reflexivity.
    + reflexivity.
    + reflexivity.
    + eexists. reflexivity.
    + apply sample_tree_fits.
    + apply Hfew. vm_compute. lia.
  - destruct (main_lists_the_top_ten ["ssfi"; "/data"] (λ _, eleven_words_tree)
                {| mVarMap := {[ "path" := string_value "/data";
                                 "threads" := int_value 3 ]} |}
                "/data") as [_ Hlist].
    + reflexivity.
    + reflexivity.
    + reflexivity.
    + eexists. reflexivity.
    + apply eleven_words_tree_fits.
    + apply Hlist. right. vm_compute. lia.
Defined.

Example main_sample_tree :
  let H := length_StdHash in
  let HS := merge_StdSort in
  let HC := sample_CommandLine in
  main ["ssfi"; "/data"] (λ _, sample_tree)
  = (Undefined, [FromIndexer (WordsFound 2)])
  ∧ main ["ssfi"; "--help"] (λ _, sample_tree) = (Exits 0, [HelpMessage])
  ∧ main ["ssfi"] (λ _, sample_tree)
    = (Exits 1, [What "You must specify a PATH to index"; EmptyLine; HelpMessage])
  ∧ main ["ssfi"; "/data/a.txt"]
         (λ _, PathInfo (Some 33188) (inl 20) (Opened [] EndOfFile))
    = (Exits 1, [PathDoesNotExist "/data/a.txt"])
  ∧ main ["ssfi"; "/data"] (λ _, eleven_words_tree)
    = (Exits 0,
       [FromIndexer (WordsFound 11); TopWord "two" 3; TopWord "one" 2;
        TopWord "eleven" 1; TopWord "seven" 1; TopWord "eight" 1; TopWord "six" 1;
        TopWord "ten" 1; TopWord "four" 1; TopWord "five" 1; TopWord "nine" 1]).
Proof. intros H HS HC. split_and!; vm_compute; reflexivity. Qed.
